(** * QfmSurface: the quadratic-flux-minimising surface orchestrator

    A shallow embedding of [src/simsopt/geo/qfmsurface.py].

    - numpy floats are idealised as real numbers ([R]); rounding, overflow
      and NaN are outside this development;
    - 1-D arrays are lists of reals, 2-D arrays are lists of rows; the
      element-wise operations follow numpy's broadcasting rule and raise
      [ValueError] on shapes that cannot be broadcast;
    - the surface objects live in a heap indexed by object identity, so
      that [set_dofs] is a visible mutation of a shared object;
    - every method is a computation in a state-and-exception monad over
      that heap, which also records the calls made on the collaborators
      (surface, label functional, residual evaluator, solver);
    - [assert] statements are live (the interpreter is not run with -O). *)

From Stdlib Require Import Reals Lra ZArith List.
From stdpp Require Import base gmap strings list.

Open Scope R_scope.

Abbreviation vec := (list R).
Abbreviation mat := (list (list R)).
Abbreviation loc := positive.

(** ** Python outcomes *)

Inductive Exn : Type :=
| AssertionError
| ValueError
| IndexError
| KeyError
| NoSuchObject.

Inductive Outcome (A : Type) : Type :=
| Ok (a : A)
| Raise (e : Exn).

Arguments Ok {A} a.
Arguments Raise {A} e.

Definition is_ok {A : Type} (o : Outcome A) : bool :=
  match o with Ok _ => true | Raise _ => false end.

(** ** The numpy fragment used by the module *)

Module Numpy.

(** Length of one broadcast axis: equal lengths, or one of them is 1. *)
Definition bdim (n m : nat) : option nat :=
  if (n =? m)%nat then Some n
  else if (n =? 1)%nat then Some m
  else if (m =? 1)%nat then Some n
  else None.

(** Stretching an axis of length 1 to length [n]; other axes are kept. *)
Definition stretch {A : Type} (n : nat) (l : list A) : list A :=
  if (length l =? n)%nat then l
  else match l with
       | [a] => repeat a n
       | _ => l
       end.

(** [a op b] on 1-D arrays. *)
Definition binop1 (f : R -> R -> R) (a b : vec) : Outcome vec :=
  match bdim (length a) (length b) with
  | Some n => Ok (zip_with f (stretch n a) (stretch n b))
  | None => Raise ValueError
  end.

Definition ncols (m : mat) : nat :=
  match m with
  | [] => 0%nat
  | r :: _ => length r
  end.

(** [a op b] on 2-D arrays. *)
Definition binop2 (f : R -> R -> R) (a b : mat) : Outcome mat :=
  match bdim (length a) (length b), bdim (ncols a) (ncols b) with
  | Some r, Some c =>
      Ok (zip_with (fun ra rb => zip_with f (stretch c ra) (stretch c rb))
            (stretch r a) (stretch r b))
  | _, _ => Raise ValueError
  end.

(** [c * a] for a scalar [c]. *)
Definition smul1 (c : R) (a : vec) : vec := map (Rmult c) a.
Definition smul2 (c : R) (a : mat) : mat := map (map (Rmult c)) a.

(** [a[:, None]] and [a[None, :]]. *)
Definition column (a : vec) : mat := map (fun e => [e]) a.
Definition row (a : vec) : mat := [a].

(** The matrix with entries [w * a_i * a_j]: what
    [w * a[:, None] * a[None, :]] evaluates to (lemma [outer_fit]). *)
Definition outer (w : R) (a : vec) : mat :=
  map (fun e => map (fun e' => w * e * e') a) a.

(** Component access, for stating results entry by entry. *)
Definition comp (a : vec) (i : nat) : R := nth i a 0.
Definition entry (a : mat) (i j : nat) : R := nth j (nth i a []) 0.

(** Shapes: a 1-D array of size [n], an [n] by [n] 2-D array. *)
Definition has_size (n : nat) (a : vec) : bool := (length a =? n)%nat.
Definition is_square (n : nat) (a : mat) : bool :=
  (length a =? n)%nat && forallb (fun r => (length r =? n)%nat) a.

End Numpy.

Import Numpy.

(** ** The heap of surfaces and the monad of method calls *)

Inductive Event : Type :=
| EvSetDofs (s : loc) (x : vec)
| EvGetDofs (s : loc)
| EvLabelJ
| EvLabelDJ
| EvLabelD2J
| EvQfmResidual (s : loc)
| EvResidualJ
| EvResidualDJ
| EvResidualD2J
| EvMinimize (method : string).

Definition is_read (e : Event) : bool :=
  match e with
  | EvSetDofs _ _ => false
  | EvMinimize _ => false
  | _ => true
  end.

Record World : Type := mkWorld {
  heap : gmap loc vec;
  calls : list Event
}.

Definition M (A : Type) : Type := World -> Outcome A * World.

Definition ret {A : Type} (a : A) : M A := fun w => (Ok a, w).

Definition raise {A : Type} (e : Exn) : M A := fun w => (Raise e, w).

Definition bind {A B : Type} (m : M A) (k : A -> M B) : M B :=
  fun w =>
    match m w with
    | (Ok a, w') => k a w'
    | (Raise e, w') => (Raise e, w')
    end.

#[global] Instance M_ret : MRet M := @ret.
#[global] Instance M_bind : MBind M := fun A B k m => bind m k.

Definition lift {A : Type} (o : Outcome A) : M A := fun w => (o, w).

Definition emit (e : Event) : M unit :=
  fun w => (Ok tt, mkWorld (heap w) (calls w ++ [e])).

(** [assert b] *)
Definition py_assert (b : bool) : M unit :=
  if b then ret tt else raise AssertionError.

(** [d in l] on integers *)
Definition py_in (d : Z) (l : list Z) : bool := existsb (Z.eqb d) l.

(** truth value of an integer, as in [if d:] *)
Definition truthy (d : Z) : bool := negb (d =? 0)%Z.

(** [framed s x w w']: from [w] to [w'] the heap changed at the surface
    [s] only, which now holds [x], and the calls made are one [set_dofs s x]
    followed by reads of the collaborators. *)
Definition framed (s : loc) (x : vec) (w w' : World) : Prop :=
  heap w' = <[s := x]> (heap w)
  /\ exists reads,
       calls w' = calls w ++ EvSetDofs s x :: reads
       /\ forallb is_read reads = true.

(** *** Surface (external): get and set of the dof vector *)

Definition set_dofs (s : loc) (x : vec) : M unit :=
  fun w => (Ok tt, mkWorld (<[s := x]> (heap w)) (calls w ++ [EvSetDofs s x])).

Definition get_dofs (s : loc) : M vec :=
  fun w =>
    match heap w !! s with
    | Some d => (Ok d, mkWorld (heap w) (calls w ++ [EvGetDofs s]))
    | None => (Raise NoSuchObject, w)
    end.

(** The state a collaborator bound to surface [s] computes from. *)
Definition read_surface {A : Type} (s : loc) (ev : Event) (f : vec -> A) : M A :=
  fun w =>
    match heap w !! s with
    | Some d => (Ok (f d), mkWorld (heap w) (calls w ++ [ev]))
    | None => (Raise NoSuchObject, w)
    end.

(** Modelled from the spec: the label functional (external, not part of
    the module); given the surface state it returns a scalar, its gradient
    and its Hessian with respect to the surface dofs. *)
Record Label : Type := mkLabel {
  label_J : vec -> R;
  label_dJ : vec -> vec;
  label_d2J : vec -> mat
}.

(** What an evaluation function returns: [val], [(val, dval)] or
    [(val, dval, d2val)]. *)
Inductive EvalResult : Type :=
| Val (val : R)
| ValGrad (val : R) (dval : vec)
| ValGradHess (val : R) (dval : vec) (d2val : mat).

Definition value_of (r : EvalResult) : R :=
  match r with
  | Val v => v
  | ValGrad v _ => v
  | ValGradHess v _ _ => v
  end.

(** ** The solver (external) *)

(** [scipy.optimize.OptimizeResult], the fields the drivers read. *)
Record OptimizeResult : Type := mkOptimizeResult {
  res_x : vec;
  res_fun : R;
  res_jac : vec;
  res_nit : Z;
  res_success : bool;
  res_message : string
}.

(** Python values stored in dicts and exchanged with the solver. *)
Inductive PyVal : Type :=
| PyFloat (r : R)
| PyArray (v : vec)
| PyMatrix (m : mat)
| PyInt (n : Z)
| PyBool (b : bool)
| PyResult (res : OptimizeResult)
| PySurface (s : loc).

(** [t[i]] on the value an evaluation function returned. *)
Definition items (r : EvalResult) : option (list PyVal) :=
  match r with
  | Val _ => None
  | ValGrad v g => Some [PyFloat v; PyArray g]
  | ValGradHess v g h => Some [PyFloat v; PyArray g; PyMatrix h]
  end.

Definition getitem (r : EvalResult) (i : Z) : Outcome PyVal :=
  match items r with
  | None => Raise IndexError
  | Some l =>
      let n := Z.of_nat (length l) in
      let j := if (i <? 0)%Z then (i + n)%Z else i in
      if ((0 <=? j) && (j <? n))%Z then
        match l !! Z.to_nat j with
        | Some v => Ok v
        | None => Raise IndexError
        end
      else Raise IndexError
  end.

(** [returned s res d]: the record [d] a driver returns holds the solver's
    result [res], its fields, and the surface [s]. *)
Definition returned (s : loc) (res : OptimizeResult) (d : gmap string PyVal)
  : Prop :=
  d !! "fun" = Some (PyFloat (res_fun res))
  /\ d !! "gradient" = Some (PyArray (res_jac res))
  /\ d !! "iter" = Some (PyInt (res_nit res))
  /\ d !! "info" = Some (PyResult res)
  /\ d !! "success" = Some (PyBool (res_success res))
  /\ d !! "s" = Some (PySurface s).

(** [settled s x run w]: started from [w], the call [run] leaves the
    surface [s] holding [x], changes nothing else in the heap, calls
    [set_dofs s x] before any read, and its outcome is the one it has from
    any other world: nothing is computed from the state before the call. *)
Definition settled {A : Type} (s : loc) (x : vec) (run : M A) (w : World)
  : Prop :=
  framed s x w (snd (run w))
  /\ heap (snd (run w)) !! s = Some x
  /\ forall w0, fst (run w0) = fst (run w).

(** One entry of the [constraints] list: [{'type': .., 'fun': .., 'jac': ..}]. *)
Record Constraint : Type := mkConstraint {
  c_type : string;
  c_fun : vec -> M PyVal;
  c_jac : vec -> M PyVal
}.

(** [NonlinearConstraint(fun, lb, ub)] *)
Record NonlinearConstraintObj : Type := NonlinearConstraint {
  nlc_fun : vec -> M PyVal;
  nlc_lb : R;
  nlc_ub : R
}.

(** Modelled from the spec: [scipy.optimize.minimize] is an external
    general-purpose solver.  One run of it is a finite strategy that asks
    for the objective (value and gradient, [jac=True]) or for the value or
    Jacobian of the i-th constraint at points of its choice, and finally
    returns a result or raises. *)
Inductive SolverRun : Type :=
| Finish (res : OptimizeResult)
| Abort (e : Exn)
| AskFun (x : vec) (k : EvalResult -> SolverRun)
| AskCon (i : nat) (x : vec) (k : PyVal -> SolverRun)
| AskJac (i : nat) (x : vec) (k : PyVal -> SolverRun).

Fixpoint run_solver (f : vec -> M EvalResult) (cs : list Constraint)
  (t : SolverRun) : M OptimizeResult :=
  match t with
  | Finish res => ret res
  | Abort e => raise e
  | AskFun x k => bind (f x) (fun v => run_solver f cs (k v))
  | AskCon i x k =>
      match cs !! i with
      | Some c => bind (c_fun c x) (fun v => run_solver f cs (k v))
      | None => raise IndexError
      end
  | AskJac i x k =>
      match cs !! i with
      | Some c => bind (c_jac c x) (fun v => run_solver f cs (k v))
      | None => raise IndexError
      end
  end.

Section QfmSurface.

(** Modelled from the spec: the field model and the residual evaluator
    [QfmResidual], imported from [simsopt.geo.surfaceobjectives];
    constructed from a surface and a field model, the evaluator returns the
    residual, its gradient and its Hessian for the current surface state. *)
Variable Field : Type.
Variable residual_J : Field -> vec -> R.
Variable residual_dJ : Field -> vec -> vec.
Variable residual_d2J : Field -> vec -> mat.

Record QfmResidualObj : Type := mkQfmResidual {
  q_surface : loc;
  q_bs : Field
}.

Definition QfmResidual (s : loc) (bs : Field) : M QfmResidualObj :=
  emit (EvQfmResidual s);; ret (mkQfmResidual s bs).

Definition QfmResidual_J (q : QfmResidualObj) : M R :=
  read_surface (q_surface q) EvResidualJ (residual_J (q_bs q)).

Definition QfmResidual_dJ (q : QfmResidualObj) : M vec :=
  read_surface (q_surface q) EvResidualDJ (residual_dJ (q_bs q)).

Definition QfmResidual_d2J (q : QfmResidualObj) : M mat :=
  read_surface (q_surface q) EvResidualD2J (residual_d2J (q_bs q)).

(** *** The orchestrator *)

Record QfmSurface : Type := mkQfmSurface {
  bs : Field;
  surface : loc;
  label : Label;
  targetlabel : R
}.

Definition init (biotsavart : Field) (surface : loc) (label : Label)
  (targetlabel : R) : QfmSurface :=
  mkQfmSurface biotsavart surface label targetlabel.

(** [self.label.J()] and its derivatives, read off the orchestrator's
    surface. *)
Definition Label_J (self : QfmSurface) : M R :=
  read_surface (surface self) EvLabelJ (label_J (label self)).

Definition Label_dJ (self : QfmSurface) : M vec :=
  read_surface (surface self) EvLabelDJ (label_dJ (label self)).

Definition Label_d2J (self : QfmSurface) : M mat :=
  read_surface (surface self) EvLabelD2J (label_d2J (label self)).

(** The shapes the collaborators promise at [x]: gradients of the size of
    the dof vector, square Hessians of that size. *)
Definition gradients_fit (self : QfmSurface) (x : vec) : bool :=
  has_size (length x) (residual_dJ (bs self) x)
  && has_size (length x) (label_dJ (label self) x).

Definition hessians_fit (self : QfmSurface) (x : vec) : bool :=
  is_square (length x) (residual_d2J (bs self) x)
  && is_square (length x) (label_d2J (label self) x).

Definition qfm_label_constraint (self : QfmSurface) (x : vec)
  (derivatives : Z) : M EvalResult :=
  py_assert (py_in derivatives [0; 1]%Z);;
  let s := surface self in
  let sdofs := x in
  let nsurfdofs := length x in
  let bs := bs self in
  set_dofs s sdofs;;
  l ← Label_J self;
  let rl := l - targetlabel self in
  let val := 0.5 * rl ^ 2 in
  if truthy derivatives then
    dl ← Label_dJ self;
    let dval := smul1 rl dl in
    ret (ValGrad val dval)
  else
    ret (Val val).

Definition qfm_objective (self : QfmSurface) (x : vec)
  (derivatives : Z) : M EvalResult :=
  py_assert (py_in derivatives [0; 1]%Z);;
  let s := surface self in
  let sdofs := x in
  let nsurfdofs := length x in
  let bs := bs self in
  set_dofs s sdofs;;
  qfm ← QfmResidual s bs;
  r ← QfmResidual_J qfm;
  if (derivatives =? 0)%Z then
    ret (Val r)
  else
    dr ← QfmResidual_dJ qfm;
    ret (ValGrad r dr).

Definition qfm_penalty_constraints (self : QfmSurface) (x : vec)
  (derivatives : Z) (constraint_weight : R) : M EvalResult :=
  py_assert (py_in derivatives [0; 1; 2]%Z);;
  let s := surface self in
  let sdofs := x in
  let nsurfdofs := length x in
  let bs := bs self in
  set_dofs s sdofs;;
  qfm ← QfmResidual s bs;
  r ← QfmResidual_J qfm;
  l ← Label_J self;
  let rl := l - targetlabel self in
  let val := r + 0.5 * constraint_weight * rl ^ 2 in
  if (derivatives =? 0)%Z then
    ret (Val val)
  else
    dr ← QfmResidual_dJ qfm;
    dl ← Label_dJ self;
    dval ← lift (binop1 Rplus dr (smul1 (constraint_weight * rl) dl));
    if (derivatives =? 1)%Z then
      ret (ValGrad val dval)
    else
      d2r ← QfmResidual_d2J qfm;
      d2l ← Label_d2J self;
      t1 ← lift (binop2 Rplus d2r (smul2 (constraint_weight * rl) d2l));
      t2 ← lift (binop2 Rmult (smul2 constraint_weight (column dl)) (row dl));
      d2val ← lift (binop2 Rplus t1 t2);
      ret (ValGradHess val dval d2val).

(** The formulas of the penalty-combined objective, as the specification
    words them, for a result [res] returned at derivative order [d]:
    the value [r + 0.5*w*rl^2], the gradient [dr + w*rl*dl] and the Hessian
    [d2r + w*rl*d2l + w*(dl (x) dl)], component by component. *)
Definition penalty_formulas (self : QfmSurface) (x : vec) (w : R) (d : Z)
  (res : EvalResult) : Prop :=
  let n := length x in
  let r := residual_J (bs self) x in
  let dr := residual_dJ (bs self) x in
  let d2r := residual_d2J (bs self) x in
  let rl := label_J (label self) x - targetlabel self in
  let dl := label_dJ (label self) x in
  let d2l := label_d2J (label self) x in
  let val_ok (v : R) := v = r + 0.5 * w * rl ^ 2 in
  let grad_ok (g : vec) :=
    length g = n /\
    forall i, (i < n)%nat -> comp g i = comp dr i + w * rl * comp dl i in
  let hess_ok (h : mat) :=
    is_square n h = true /\
    forall i j, (i < n)%nat -> (j < n)%nat ->
      entry h i j
      = entry d2r i j + w * rl * entry d2l i j + w * (comp dl i * comp dl j) in
  match res with
  | Val v => d = 0%Z /\ val_ok v
  | ValGrad v g => d = 1%Z /\ val_ok v /\ grad_ok g
  | ValGradHess v g h => d = 2%Z /\ val_ok v /\ grad_ok g /\ hess_ok h
  end.

(** *** The two drivers *)

(** The solver's strategy for a method, a starting point, its options and
    the types of the constraints it is given. *)
Variable solver : string -> vec -> gmap string PyVal -> list string -> SolverRun.

Definition minimize (f : vec -> M EvalResult) (x0 : vec) (method : string)
  (constraints : list Constraint) (options : gmap string PyVal)
  : M OptimizeResult :=
  emit (EvMinimize method);;
  run_solver f constraints (solver method x0 options (map c_type constraints)).

(** [lambda x: self.qfm_penalty_constraints(x, derivatives=1,
    constraint_weight=constraint_weight)] *)
Definition fun_penalty (self : QfmSurface) (constraint_weight : R)
  : vec -> M EvalResult :=
  fun x => qfm_penalty_constraints self x 1%Z constraint_weight.

Definition minimize_qfm_penalty_constraints_LBFGS (self : QfmSurface)
  (tol : R) (maxiter : Z) (constraint_weight : R) : M (gmap string PyVal) :=
  let s := surface self in
  x ← get_dofs s;
  let fun_ := fun_penalty self constraint_weight in
  res ← minimize fun_ x "L-BFGS-B" []
          {[ "maxiter" := PyInt maxiter; "ftol" := PyFloat tol;
             "gtol" := PyFloat tol; "maxcor" := PyInt 200 ]};
  let resdict : gmap string PyVal :=
    {[ "fun" := PyFloat (res_fun res); "gradient" := PyArray (res_jac res);
       "iter" := PyInt (res_nit res); "info" := PyResult res;
       "success" := PyBool (res_success res) ]} in
  set_dofs s (res_x res);;
  let resdict := <["s" := PySurface s]> resdict in
  ret resdict.

(** [lambda x: self.qfm_objective(x, derivatives=1)] *)
Definition fun_exact (self : QfmSurface) : vec -> M EvalResult :=
  fun x => qfm_objective self x 1%Z.

(** [lambda x: self.qfm_label_constraint(x, derivatives=1)[0]] *)
Definition con (self : QfmSurface) : vec -> M PyVal :=
  fun x => t ← qfm_label_constraint self x 1%Z; lift (getitem t 0).

(** [lambda x: self.qfm_label_constraint(x, derivatives=1)[1]] *)
Definition dcon (self : QfmSurface) : vec -> M PyVal :=
  fun x => t ← qfm_label_constraint self x 1%Z; lift (getitem t 1).

(** [[{'type': 'eq', 'fun': con, 'jac': dcon}]] *)
Definition eq_constraints (self : QfmSurface) : list Constraint :=
  [mkConstraint "eq" (con self) (dcon self)].

Definition minimize_qfm_exact_constraints_SLSQP (self : QfmSurface)
  (tol : R) (maxiter : Z) : M (gmap string PyVal) :=
  let s := surface self in
  x ← get_dofs s;
  let fun_ := fun_exact self in
  let con := con self in
  let dcon := dcon self in
  let nlc := NonlinearConstraint con 0 0 in
  let eq_constraints := eq_constraints self in
  res ← minimize fun_ x "SLSQP" eq_constraints
          {[ "maxiter" := PyInt maxiter; "ftol" := PyFloat tol ]};
  let resdict : gmap string PyVal :=
    {[ "fun" := PyFloat (res_fun res); "gradient" := PyArray (res_jac res);
       "iter" := PyInt (res_nit res); "info" := PyResult res;
       "success" := PyBool (res_success res) ]} in
  set_dofs s (res_x res);;
  let resdict := <["s" := PySurface s]> resdict in
  ret resdict.

End QfmSurface.

Arguments bs {Field} _.
Arguments surface {Field} _.
Arguments label {Field} _.
Arguments targetlabel {Field} _.
Arguments init {Field} _ _ _ _.
Arguments gradients_fit {Field} _ _ _.
Arguments hessians_fit {Field} _ _ _.
Arguments qfm_label_constraint {Field} _ _ _.
Arguments qfm_objective {Field} _ _ _ _ _.
Arguments qfm_penalty_constraints {Field} _ _ _ _ _ _ _.
Arguments fun_penalty {Field} _ _ _ _ _.
Arguments fun_exact {Field} _ _ _.
Arguments penalty_formulas {Field} _ _ _ _ _ _ _ _.
Arguments eq_constraints {Field} _.
Arguments con {Field} _.
Arguments dcon {Field} _.
Arguments minimize_qfm_penalty_constraints_LBFGS {Field} _ _ _ _ _ _ _ _.
Arguments minimize_qfm_exact_constraints_SLSQP {Field} _ _ _ _ _ _.

(** ** Notions used to state further properties *)

(** A solver run that does not raise by itself and asks only for
    constraints among the [n] it was given. *)
Inductive well_behaved (n : nat) : SolverRun -> Prop :=
| wb_finish (res : OptimizeResult) : well_behaved n (Finish res)
| wb_fun (x : vec) (k : EvalResult -> SolverRun) :
    (forall v, well_behaved n (k v)) -> well_behaved n (AskFun x k)
| wb_con (i : nat) (x : vec) (k : PyVal -> SolverRun) :
    (i < n)%nat -> (forall v, well_behaved n (k v)) ->
    well_behaved n (AskCon i x k)
| wb_jac (i : nat) (x : vec) (k : PyVal -> SolverRun) :
    (i < n)%nat -> (forall v, well_behaved n (k v)) ->
    well_behaved n (AskJac i x k).

(** A solver run that reports an evaluation: the result it finishes with
    carries a point together with the value and the gradient the objective
    answered at that point earlier in the run ([hist] holds the answers so
    far). *)
Inductive faithful : list (vec * R * vec) -> SolverRun -> Prop :=
| fa_finish (hist : list (vec * R * vec)) (res : OptimizeResult) :
    In (res_x res, res_fun res, res_jac res) hist ->
    faithful hist (Finish res)
| fa_abort (hist : list (vec * R * vec)) (e : Exn) :
    faithful hist (Abort e)
| fa_fun (hist : list (vec * R * vec)) (x : vec)
    (k : EvalResult -> SolverRun) :
    (forall v g, faithful ((x, v, g) :: hist) (k (ValGrad v g))) ->
    faithful hist (AskFun x k)
| fa_con (hist : list (vec * R * vec)) (i : nat) (x : vec)
    (k : PyVal -> SolverRun) :
    (forall v, faithful hist (k v)) -> faithful hist (AskCon i x k)
| fa_jac (hist : list (vec * R * vec)) (i : nat) (x : vec)
    (k : PyVal -> SolverRun) :
    (forall v, faithful hist (k v)) -> faithful hist (AskJac i x k).

(** The record both drivers return for the solver's result [res] and the
    surface [s], and the options each driver passes to the solver. *)
Definition record_of (s : loc) (res : OptimizeResult) : gmap string PyVal :=
  <["s" := PySurface s]>
    {[ "fun" := PyFloat (res_fun res); "gradient" := PyArray (res_jac res);
       "iter" := PyInt (res_nit res); "info" := PyResult res;
       "success" := PyBool (res_success res) ]}.

Definition lbfgs_options (tol : R) (maxiter : Z) : gmap string PyVal :=
  {[ "maxiter" := PyInt maxiter; "ftol" := PyFloat tol;
     "gtol" := PyFloat tol; "maxcor" := PyInt 200 ]}.

Definition slsqp_options (tol : R) (maxiter : Z) : gmap string PyVal :=
  {[ "maxiter" := PyInt maxiter; "ftol" := PyFloat tol ]}.

(** [only_at s w w']: the heaps of [w] and [w'] agree on every object but
    the surface [s]. *)
Definition only_at (s : loc) (w w' : World) : Prop :=
  forall l : loc, l <> s -> heap w' !! l = heap w !! l.

(** ** A small instance

    A surface with two dofs, the sum of squares as residual and the sum of
    the dofs as label; a solver that evaluates two points and gives up. *)

Module Example.

Definition toy_residual_J (_ : unit) (x : vec) : R :=
  fold_right Rplus 0 (map (fun a => a * a) x).

Definition toy_residual_dJ (_ : unit) (x : vec) : vec :=
  map (fun a => 2 * a) x.

Definition toy_residual_d2J (_ : unit) (x : vec) : mat :=
  map (fun i => map (fun j => if (i =? j)%nat then 2 else 0)
                  (seq 0 (length x)))
    (seq 0 (length x)).

Definition toy_label : Label :=
  mkLabel (fun x => fold_right Rplus 0 x)
    (fun x => map (fun _ => 1) x)
    (fun x => map (fun _ => map (fun _ => 0) x) x).

Definition toy_surface : loc := 1%positive.

Definition toy_self : QfmSurface unit := init tt toy_surface toy_label 1.

(** The same orchestrator with another target label. *)
Definition toy_self' : QfmSurface unit := init tt toy_surface toy_label 5.

Definition toy_world : World := mkWorld {[ toy_surface := [0; 0] ]} [].

Definition toy_x : vec := [2; 0].

Definition grad_of (r : EvalResult) : vec :=
  match r with
  | Val _ => []
  | ValGrad _ g => g
  | ValGradHess _ g _ => g
  end.

(** Evaluates the objective at [toy_x], then at another point, asks for the
    constraint when there is one, and reports the first point without
    success. *)
Definition toy_solver (method : string) (x0 : vec)
  (options : gmap string PyVal) (ctypes : list string) : SolverRun :=
  AskFun toy_x (fun v1 =>
  AskFun [3; 4] (fun v2 =>
  match ctypes with
  | [] =>
      Finish (mkOptimizeResult toy_x (value_of v1) (grad_of v1) 2 false
                "ITERATION LIMIT")
  | _ :: _ =>
      AskCon 0 [3; 4] (fun c =>
      Finish (mkOptimizeResult toy_x (value_of v1) (grad_of v1) 2 false
                "ITERATION LIMIT"))
  end)).

(** A label functional whose gradient has three components, whatever the
    number of dofs, and an orchestrator using it. *)
Definition odd_label : Label :=
  mkLabel (fun x => fold_right Rplus 0 x)
    (fun _ => [1; 1; 1])
    (fun x => map (fun _ => map (fun _ => 0) x) x).

Definition odd_self : QfmSurface unit := init tt toy_surface odd_label 1.

(** A second surface, which no orchestrator of this instance refers to. *)
Definition other_surface : loc := 2%positive.

Definition two_surfaces : World :=
  mkWorld {[ toy_surface := [0; 0]; other_surface := [7; 7; 7] ]} [].

Abbreviation toy_objective :=
  (qfm_objective toy_residual_J toy_residual_dJ).
Abbreviation toy_penalty :=
  (qfm_penalty_constraints toy_residual_J toy_residual_dJ toy_residual_d2J).
Abbreviation toy_formulas :=
  (penalty_formulas toy_residual_J toy_residual_dJ toy_residual_d2J).
Abbreviation toy_lbfgs :=
  (minimize_qfm_penalty_constraints_LBFGS toy_residual_J toy_residual_dJ
     toy_residual_d2J toy_solver).
Abbreviation toy_slsqp :=
  (minimize_qfm_exact_constraints_SLSQP toy_residual_J toy_residual_dJ
     toy_solver).

End Example.

(** ** Facts about the numpy fragment *)

Section NumpyFacts.

Lemma bdim_same (n : nat) : bdim n n = Some n.
Proof. unfold bdim. now rewrite Nat.eqb_refl. Qed.

Lemma stretch_same {A : Type} (n : nat) (l : list A) :
  length l = n -> stretch n l = l.
Proof. intros H. unfold stretch. now rewrite H, Nat.eqb_refl. Qed.

Lemma binop1_fit (f : R -> R -> R) (a b : vec) :
  length a = length b -> binop1 f a b = Ok (zip_with f a b).
Proof.
  intros H. unfold binop1. rewrite <- H, bdim_same.
  now rewrite !stretch_same by congruence.
Qed.

Lemma nth_zip_with {A B C : Type} (g : A -> B -> C) (a : list A)
  (b : list B) (i : nat) (da : A) (db : B) (dc : C) :
  length a = length b -> (i < length a)%nat ->
  nth i (zip_with g a b) dc = g (nth i a da) (nth i b db).
Proof.
  revert b i.
  induction a as [|u a IH]; intros [|v b] i Hl Hi; simpl in *; try lia.
  destruct i as [|i]; [reflexivity|]. apply IH; lia.
Qed.

Lemma comp_zip_with (f : R -> R -> R) (a b : vec) (i : nat) :
  length a = length b -> (i < length a)%nat ->
  comp (zip_with f a b) i = f (comp a i) (comp b i).
Proof. apply nth_zip_with. Qed.

Lemma comp_smul1 (c : R) (a : vec) (i : nat) :
  comp (smul1 c a) i = c * comp a i.
Proof.
  unfold comp, smul1.
  rewrite <- (Rmult_0_r c) at 1. apply map_nth.
Qed.

Lemma length_smul1 (c : R) (a : vec) : length (smul1 c a) = length a.
Proof. apply length_map. Qed.

Lemma is_square_spec (n : nat) (a : mat) :
  is_square n a = true <->
  length a = n /\ Forall (fun r : vec => length r = n) a.
Proof.
  unfold is_square. rewrite andb_true_iff, Nat.eqb_eq, forallb_forall.
  rewrite List.Forall_forall.
  split; intros [H1 H2]; split; trivial; intros r Hr;
    apply Nat.eqb_eq, H2, Hr.
Qed.

Lemma ncols_square (n : nat) (a : mat) : is_square n a = true -> ncols a = n.
Proof.
  intros [Hl Hr]%is_square_spec.
  destruct a as [|r a]; simpl in *; [assumption|].
  now inversion Hr.
Qed.

Lemma row_square (n : nat) (a : mat) (i : nat) :
  is_square n a = true -> (i < n)%nat -> length (nth i a []) = n.
Proof.
  intros [Hl Hr]%is_square_spec Hi.
  rewrite List.Forall_forall in Hr. apply Hr, nth_In. lia.
Qed.

Lemma zip_with_rows (f : R -> R -> R) (n : nat) (a b : mat) :
  Forall (fun r : vec => length r = n) a ->
  Forall (fun r : vec => length r = n) b ->
  zip_with (fun ra rb => zip_with f (stretch n ra) (stretch n rb)) a b
  = zip_with (zip_with f) a b.
Proof.
  intros Ha. revert b.
  induction Ha as [|ra a Hra Ha IH]; intros b Hb; [reflexivity|].
  destruct Hb as [|rb b Hrb Hb]; [reflexivity|]. simpl.
  rewrite !stretch_same by assumption. f_equal. now apply IH.
Qed.

Lemma binop2_fit (f : R -> R -> R) (n : nat) (a b : mat) :
  is_square n a = true -> is_square n b = true ->
  binop2 f a b = Ok (zip_with (zip_with f) a b).
Proof.
  intros Ha Hb. unfold binop2.
  rewrite (ncols_square n a Ha), (ncols_square n b Hb).
  apply is_square_spec in Ha as [Hla Hra].
  apply is_square_spec in Hb as [Hlb Hrb].
  rewrite Hla, Hlb, bdim_same, !stretch_same by assumption.
  now rewrite (zip_with_rows f n).
Qed.

Lemma is_square_zip_with (f : R -> R -> R) (n : nat) (a b : mat) :
  is_square n a = true -> is_square n b = true ->
  is_square n (zip_with (zip_with f) a b) = true.
Proof.
  intros [Hla Hra]%is_square_spec [Hlb Hrb]%is_square_spec.
  apply is_square_spec. split.
  - rewrite length_zip_with. lia.
  - clear Hla Hlb. revert b Hrb.
    induction Hra as [|ra a Hr Hra IH]; intros b Hrb; [constructor|].
    destruct Hrb as [|rb b Hb Hrb]; [constructor|]. simpl.
    constructor; [|now apply IH].
    rewrite length_zip_with. lia.
Qed.

Lemma entry_zip_with (f : R -> R -> R) (n : nat) (a b : mat) (i j : nat) :
  is_square n a = true -> is_square n b = true ->
  (i < n)%nat -> (j < n)%nat ->
  entry (zip_with (zip_with f) a b) i j = f (entry a i j) (entry b i j).
Proof.
  intros Ha Hb Hi Hj. unfold entry.
  pose proof (row_square n a i Ha Hi) as Hra.
  pose proof (row_square n b i Hb Hi) as Hrb.
  apply is_square_spec in Ha as [Hla _].
  apply is_square_spec in Hb as [Hlb _].
  rewrite (nth_zip_with (zip_with f) a b i [] [] []) by lia.
  apply nth_zip_with; lia.
Qed.

Lemma is_square_smul2 (c : R) (n : nat) (a : mat) :
  is_square n a = true -> is_square n (smul2 c a) = true.
Proof.
  intros [Hl Hr]%is_square_spec. apply is_square_spec. unfold smul2. split.
  - now rewrite length_map.
  - apply List.Forall_map. eapply List.Forall_impl; [|exact Hr].
    intros r Hlen. now rewrite length_map.
Qed.

Lemma entry_smul2 (c : R) (a : mat) (i j : nat) :
  entry (smul2 c a) i j = c * entry a i j.
Proof.
  unfold entry, smul2.
  change (@nil R) with (map (Rmult c) []) at 1. rewrite map_nth.
  rewrite <- (Rmult_0_r c) at 1. apply map_nth.
Qed.

Lemma ncols_smul2 (c : R) (a : mat) : ncols (smul2 c a) = ncols a.
Proof. destruct a as [|r a]; simpl; [reflexivity|]. apply length_map. Qed.

Lemma zip_with_repeat_l {A B C : Type} (g : A -> B -> C) (c : A)
  (l : list B) :
  zip_with g (repeat c (length l)) l = map (g c) l.
Proof. induction l as [|b l IH]; simpl; [reflexivity|]. now rewrite IH. Qed.

Lemma zip_with_map_repeat {A B C D : Type} (g : B -> C -> D) (h : A -> B)
  (d : C) (l : list A) :
  zip_with g (map h l) (repeat d (length l)) = map (fun a => g (h a) d) l.
Proof. induction l as [|a l IH]; simpl; [reflexivity|]. now rewrite IH. Qed.

(** Broadcasting a column against a row never fails and gives the outer
    product. *)
Lemma outer_fit (w : R) (dl : vec) :
  binop2 Rmult (smul2 w (column dl)) (row dl) = Ok (outer w dl).
Proof.
  destruct dl as [|a [|b dl]]; [reflexivity | reflexivity |].
  remember (a :: b :: dl) as l eqn:El.
  assert (Hn : exists n, length l = S (S n)) by (subst l; simpl; eauto).
  destruct Hn as [n Hn].
  assert (E1 : length (smul2 w (column l)) = S (S n))
    by (unfold smul2, column; now rewrite !length_map).
  assert (E3 : ncols (smul2 w (column l)) = 1%nat) by (subst l; reflexivity).
  assert (E4 : ncols (row l) = S (S n)) by exact Hn.
  unfold binop2. rewrite E1, E3, E4.
  change (length (row l)) with 1%nat.
  change (bdim (S (S n)) 1) with (Some (S (S n))).
  change (bdim 1 (S (S n))) with (Some (S (S n))).
  cbv iota beta.
  rewrite (stretch_same _ (smul2 w (column l))) by exact E1.
  change (stretch (S (S n)) (row l)) with (repeat l (S (S n))).
  unfold smul2, column. rewrite <- Hn, map_map, zip_with_map_repeat.
  f_equal. unfold outer. apply map_ext. intros e.
  rewrite (stretch_same _ l) by reflexivity.
  replace (stretch (length l) (map (Rmult w) [e]))
    with (repeat (w * e) (length l)) by (now rewrite Hn).
  apply zip_with_repeat_l.
Qed.

Lemma is_square_outer (w : R) (dl : vec) :
  is_square (length dl) (outer w dl) = true.
Proof.
  apply is_square_spec. unfold outer. split; [apply length_map|].
  apply List.Forall_map, List.Forall_forall. intros e _. apply length_map.
Qed.

Lemma entry_outer (w : R) (dl : vec) (i j : nat) :
  (i < length dl)%nat ->
  entry (outer w dl) i j = w * comp dl i * comp dl j.
Proof.
  intros Hi. unfold entry, outer, comp.
  rewrite (nth_indep _ [] (map (fun e' => w * 0 * e') dl))
    by (now rewrite length_map).
  rewrite (map_nth (fun e => map (fun e' => w * e * e') dl) dl 0 i).
  rewrite <- (Rmult_0_r (w * nth i dl 0)) at 1.
  apply (map_nth (fun e' => w * nth i dl 0 * e')).
Qed.

(** Whether an element-wise operation fails depends on the shapes only. *)
Lemma stretch_map {A B : Type} (g : A -> B) (n : nat) (l : list A) :
  stretch n (map g l) = map g (stretch n l).
Proof.
  unfold stretch. rewrite length_map.
  destruct (length l =? n)%nat; [reflexivity|].
  destruct l as [|a [|b l]]; simpl; trivial.
  induction n as [|n IH]; simpl; [reflexivity|]. now rewrite IH.
Qed.

Lemma is_ok_binop1_smul1 (f : R -> R -> R) (c c' : R) (a b : vec) :
  is_ok (binop1 f a (smul1 c b)) = is_ok (binop1 f a (smul1 c' b)).
Proof.
  unfold binop1. rewrite !length_smul1.
  now destruct (bdim (length a) (length b)).
Qed.

Lemma shape_rows_smul2 (f : R -> R -> R) (n : nat) (c : R) (a b : mat) :
  map length
    (zip_with (fun ra rb => zip_with f (stretch n ra) (stretch n rb))
       a (smul2 c b))
  = map length
      (zip_with (fun ra rb => zip_with f (stretch n ra) (stretch n rb)) a b).
Proof.
  unfold smul2. revert b.
  induction a as [|ra a IH]; intros [|rb b]; simpl; trivial.
  rewrite IH. f_equal.
  now rewrite stretch_map, !length_zip_with, length_map.
Qed.

Lemma shape_binop2_smul2 (f : R -> R -> R) (c c' : R) (a b : mat) :
  match binop2 f a (smul2 c b), binop2 f a (smul2 c' b) with
  | Ok t, Ok t' => map length t = map length t'
  | Raise _, Raise _ => True
  | _, _ => False
  end.
Proof.
  unfold binop2. rewrite !ncols_smul2.
  replace (length (smul2 c b)) with (length b)
    by (unfold smul2; now rewrite length_map).
  replace (length (smul2 c' b)) with (length b)
    by (unfold smul2; now rewrite length_map).
  destruct (bdim (length a) (length b)) as [r|]; [|exact I].
  destruct (bdim (ncols a) (ncols b)) as [k|]; [|exact I].
  assert (Hs : forall e, stretch r (smul2 e b) = smul2 e (stretch r b))
    by (intros e; apply stretch_map).
  now rewrite !Hs, !(shape_rows_smul2 f k).
Qed.

Lemma shape_dims (a a' : mat) :
  map length a = map length a' -> length a = length a' /\ ncols a = ncols a'.
Proof.
  intros H. split.
  - rewrite <- (length_map length a), H. apply length_map.
  - destruct a, a'; simpl in *; congruence.
Qed.

Lemma is_ok_binop2_shape (f : R -> R -> R) (a a' b b' : mat) :
  map length a = map length a' -> map length b = map length b' ->
  is_ok (binop2 f a b) = is_ok (binop2 f a' b').
Proof.
  intros [Hl Hc]%shape_dims [Hl' Hc']%shape_dims. unfold binop2.
  rewrite Hl, Hc, Hl', Hc'.
  destruct (bdim (length a') (length b')); [|reflexivity].
  now destruct (bdim (ncols a') (ncols b')).
Qed.

Lemma shape_outer (w w' : R) (dl : vec) :
  map length (outer w dl) = map length (outer w' dl).
Proof.
  unfold outer. rewrite !map_map. apply map_ext. intros e.
  now rewrite !length_map.
Qed.

End NumpyFacts.

(** ** Running the evaluation functions *)

Lemma read_after_set {A : Type} (s : loc) (x : vec) (ev : Event)
  (f : vec -> A) (h : gmap loc vec) (c : list Event) :
  read_surface s ev f (mkWorld (<[s := x]> h) c)
  = (Ok (f x), mkWorld (<[s := x]> h) (c ++ [ev])).
Proof. unfold read_surface. simpl. now rewrite lookup_insert_eq. Qed.

(** Symbolic execution of a method body from a given world. *)
Ltac exec :=
  repeat first
    [ progress cbv [mbind M_bind bind mret M_ret ret raise lift emit set_dofs
                    py_assert QfmResidual QfmResidual_J QfmResidual_dJ
                    QfmResidual_d2J Label_J Label_dJ Label_d2J
                    q_surface q_bs heap calls]
    | rewrite read_after_set
    | rewrite <- app_assoc
    | progress simpl app ].

Lemma py_in_01 (d : Z) : py_in d [0; 1]%Z = true <-> d = 0%Z \/ d = 1%Z.
Proof.
  unfold py_in. simpl. rewrite !orb_true_iff, !Z.eqb_eq. intuition discriminate.
Qed.

Lemma py_in_012 (d : Z) :
  py_in d [0; 1; 2]%Z = true <-> d = 0%Z \/ d = 1%Z \/ d = 2%Z.
Proof.
  unfold py_in. simpl. rewrite !orb_true_iff, !Z.eqb_eq. intuition discriminate.
Qed.

Section Evaluators.

Context {Field : Type}.
Variable residual_J : Field -> vec -> R.
Variable residual_dJ : Field -> vec -> vec.
Variable residual_d2J : Field -> vec -> mat.

Lemma gradients_fit_spec (self : QfmSurface Field) (x : vec) :
  gradients_fit residual_dJ self x = true ->
  length (residual_dJ (bs self) x) = length x
  /\ length (label_dJ (label self) x) = length x.
Proof.
  unfold gradients_fit, has_size.
  now intros [H1%Nat.eqb_eq H2%Nat.eqb_eq]%andb_true_iff.
Qed.

Lemma hessians_fit_spec (self : QfmSurface Field) (x : vec) :
  hessians_fit residual_d2J self x = true ->
  is_square (length x) (residual_d2J (bs self) x) = true
  /\ is_square (length x) (label_d2J (label self) x) = true.
Proof. unfold hessians_fit. now intros H%andb_true_iff. Qed.

Lemma label_run (self : QfmSurface Field) (x : vec) (d : Z) (w : World) :
  py_in d [0; 1]%Z = true ->
  qfm_label_constraint self x d w =
  let rl := label_J (label self) x - targetlabel self in
  (Ok (if truthy d
       then ValGrad (0.5 * rl ^ 2) (smul1 rl (label_dJ (label self) x))
       else Val (0.5 * rl ^ 2)),
   mkWorld (<[surface self := x]> (heap w))
     (calls w ++ EvSetDofs (surface self) x :: EvLabelJ
        :: (if truthy d then [EvLabelDJ] else []))).
Proof.
  intros Hd. unfold qfm_label_constraint. rewrite Hd.
  destruct (truthy d); exec; reflexivity.
Qed.

Lemma objective_run (self : QfmSurface Field) (x : vec) (d : Z) (w : World) :
  py_in d [0; 1]%Z = true ->
  qfm_objective residual_J residual_dJ self x d w =
  let r := residual_J (bs self) x in
  (Ok (if (d =? 0)%Z then Val r else ValGrad r (residual_dJ (bs self) x)),
   mkWorld (<[surface self := x]> (heap w))
     (calls w ++ EvSetDofs (surface self) x :: EvQfmResidual (surface self)
        :: EvResidualJ :: (if (d =? 0)%Z then [] else [EvResidualDJ]))).
Proof.
  intros Hd. unfold qfm_objective. rewrite Hd.
  destruct (d =? 0)%Z; exec; reflexivity.
Qed.

Lemma penalty_run0 (self : QfmSurface Field) (x : vec) (cw : R) (w : World) :
  qfm_penalty_constraints residual_J residual_dJ residual_d2J self x 0 cw w =
  let r := residual_J (bs self) x in
  let rl := label_J (label self) x - targetlabel self in
  (Ok (Val (r + 0.5 * cw * rl ^ 2)),
   mkWorld (<[surface self := x]> (heap w))
     (calls w ++ [EvSetDofs (surface self) x; EvQfmResidual (surface self);
                  EvResidualJ; EvLabelJ])).
Proof.
  unfold qfm_penalty_constraints. simpl py_in. simpl Z.eqb. exec.
  reflexivity.
Qed.

Lemma penalty_run1 (self : QfmSurface Field) (x : vec) (cw : R) (w : World) :
  gradients_fit residual_dJ self x = true ->
  qfm_penalty_constraints residual_J residual_dJ residual_d2J self x 1 cw w =
  let r := residual_J (bs self) x in
  let rl := label_J (label self) x - targetlabel self in
  (Ok (ValGrad (r + 0.5 * cw * rl ^ 2)
         (zip_with Rplus (residual_dJ (bs self) x)
            (smul1 (cw * rl) (label_dJ (label self) x)))),
   mkWorld (<[surface self := x]> (heap w))
     (calls w ++ [EvSetDofs (surface self) x; EvQfmResidual (surface self);
                  EvResidualJ; EvLabelJ; EvResidualDJ; EvLabelDJ])).
Proof.
  intros [Hr Hl]%gradients_fit_spec. unfold qfm_penalty_constraints.
  simpl py_in. simpl Z.eqb. exec.
  rewrite binop1_fit by (rewrite length_smul1; congruence).
  exec. reflexivity.
Qed.

Lemma penalty_run2 (self : QfmSurface Field) (x : vec) (cw : R) (w : World) :
  gradients_fit residual_dJ self x = true ->
  hessians_fit residual_d2J self x = true ->
  qfm_penalty_constraints residual_J residual_dJ residual_d2J self x 2 cw w =
  let r := residual_J (bs self) x in
  let rl := label_J (label self) x - targetlabel self in
  let dl := label_dJ (label self) x in
  (Ok (ValGradHess (r + 0.5 * cw * rl ^ 2)
         (zip_with Rplus (residual_dJ (bs self) x) (smul1 (cw * rl) dl))
         (zip_with (zip_with Rplus)
            (zip_with (zip_with Rplus) (residual_d2J (bs self) x)
               (smul2 (cw * rl) (label_d2J (label self) x)))
            (outer cw dl))),
   mkWorld (<[surface self := x]> (heap w))
     (calls w ++ [EvSetDofs (surface self) x; EvQfmResidual (surface self);
                  EvResidualJ; EvLabelJ; EvResidualDJ; EvLabelDJ;
                  EvResidualD2J; EvLabelD2J])).
Proof.
  intros [Hr Hl]%gradients_fit_spec [Hr2 Hl2]%hessians_fit_spec.
  unfold qfm_penalty_constraints. simpl py_in. simpl Z.eqb. exec.
  rewrite binop1_fit by (rewrite length_smul1; congruence).
  exec.
  rewrite (binop2_fit Rplus (length x))
    by (trivial; now apply is_square_smul2).
  exec. rewrite outer_fit. exec.
  rewrite (binop2_fit Rplus (length x)).
  - reflexivity.
  - apply is_square_zip_with; trivial. now apply is_square_smul2.
  - rewrite <- Hl. apply is_square_outer.
Qed.

(** The formulas of the penalty-combined objective hold for every real
    weight as soon as the collaborators return arrays of the promised
    shapes. *)
Lemma penalty_formulas0 (self : QfmSurface Field) (x : vec) (cw : R)
  (w : World) :
  exists v,
    fst (qfm_penalty_constraints residual_J residual_dJ residual_d2J
           self x 0 cw w) = Ok (Val v)
    /\ penalty_formulas residual_J residual_dJ residual_d2J self x cw 0
         (Val v).
Proof.
  rewrite penalty_run0. eexists. split; [reflexivity|]. simpl. auto.
Qed.

Lemma gradient_formula (self : QfmSurface Field) (x : vec) (cw : R) :
  gradients_fit residual_dJ self x = true ->
  let rl := label_J (label self) x - targetlabel self in
  let dr := residual_dJ (bs self) x in
  let dl := label_dJ (label self) x in
  let g := zip_with Rplus dr (smul1 (cw * rl) dl) in
  length g = length x
  /\ forall i, (i < length x)%nat ->
       comp g i = comp dr i + cw * rl * comp dl i.
Proof.
  intros [Hr Hl]%gradients_fit_spec. simpl. split.
  - rewrite length_zip_with, length_smul1. lia.
  - intros i Hi. rewrite comp_zip_with, comp_smul1; trivial.
    + rewrite length_smul1. congruence.
    + lia.
Qed.

Lemma hessian_formula (self : QfmSurface Field) (x : vec) (cw : R) :
  gradients_fit residual_dJ self x = true ->
  hessians_fit residual_d2J self x = true ->
  let rl := label_J (label self) x - targetlabel self in
  let d2r := residual_d2J (bs self) x in
  let dl := label_dJ (label self) x in
  let d2l := label_d2J (label self) x in
  let h := zip_with (zip_with Rplus)
             (zip_with (zip_with Rplus) d2r (smul2 (cw * rl) d2l))
             (outer cw dl) in
  is_square (length x) h = true
  /\ forall i j, (i < length x)%nat -> (j < length x)%nat ->
       entry h i j
       = entry d2r i j + cw * rl * entry d2l i j
         + cw * (comp dl i * comp dl j).
Proof.
  intros [Hr Hl]%gradients_fit_spec [Hr2 Hl2]%hessians_fit_spec. simpl.
  assert (H1 : is_square (length x)
                 (zip_with (zip_with Rplus) (residual_d2J (bs self) x)
                    (smul2 (cw * (label_J (label self) x - targetlabel self))
                       (label_d2J (label self) x))) = true).
  { apply is_square_zip_with; trivial. now apply is_square_smul2. }
  assert (H2 : is_square (length x) (outer cw (label_dJ (label self) x))
               = true).
  { rewrite <- Hl. apply is_square_outer. }
  split.
  - now apply is_square_zip_with.
  - intros i j Hi Hj.
    rewrite (entry_zip_with Rplus (length x)) by trivial.
    rewrite (entry_zip_with Rplus (length x))
      by (trivial; now apply is_square_smul2).
    rewrite entry_smul2, entry_outer by lia. ring.
Qed.

Lemma penalty_formulas1 (self : QfmSurface Field) (x : vec) (cw : R)
  (w : World) :
  gradients_fit residual_dJ self x = true ->
  exists v g,
    fst (qfm_penalty_constraints residual_J residual_dJ residual_d2J
           self x 1 cw w) = Ok (ValGrad v g)
    /\ penalty_formulas residual_J residual_dJ residual_d2J self x cw 1
         (ValGrad v g).
Proof.
  intros Hg. rewrite penalty_run1 by assumption.
  destruct (gradient_formula self x cw Hg) as [Hlen Hcomp].
  eexists _, _. split; [reflexivity|]. simpl. auto.
Qed.

Lemma penalty_formulas2 (self : QfmSurface Field) (x : vec) (cw : R)
  (w : World) :
  gradients_fit residual_dJ self x = true ->
  hessians_fit residual_d2J self x = true ->
  exists v g h,
    fst (qfm_penalty_constraints residual_J residual_dJ residual_d2J
           self x 2 cw w) = Ok (ValGradHess v g h)
    /\ penalty_formulas residual_J residual_dJ residual_d2J self x cw 2
         (ValGradHess v g h).
Proof.
  intros Hg Hh. rewrite penalty_run2 by assumption.
  destruct (gradient_formula self x cw Hg) as [Hlen Hcomp].
  destruct (hessian_formula self x cw Hg Hh) as [Hsq Hent].
  eexists _, _, _. split; [reflexivity|]. simpl. auto.
Qed.

(** Case analysis on every array operation that may raise. *)
Ltac split_outcomes :=
  repeat (exec;
          match goal with
          | |- context [match ?o with Ok _ => _ | Raise _ => _ end] =>
              destruct o
          end).

(** After a call at a permitted order the heap differs from the initial
    one at the surface only, whatever the outcome, and the new calls are
    [set_dofs] followed by reads. *)
Lemma label_frame (self : QfmSurface Field) (x : vec) (d : Z) (w : World) :
  py_in d [0; 1]%Z = true ->
  framed (surface self) x w (snd (qfm_label_constraint self x d w)).
Proof.
  intros Hd. rewrite label_run by assumption. simpl. split; [reflexivity|].
  eexists. split; [reflexivity|]. now destruct (truthy d).
Qed.

Lemma objective_frame (self : QfmSurface Field) (x : vec) (d : Z)
  (w : World) :
  py_in d [0; 1]%Z = true ->
  framed (surface self) x w
    (snd (qfm_objective residual_J residual_dJ self x d w)).
Proof.
  intros Hd. rewrite objective_run by assumption. simpl.
  split; [reflexivity|].
  eexists. split; [reflexivity|]. now destruct (d =? 0)%Z.
Qed.

Lemma penalty_frame (self : QfmSurface Field) (x : vec) (d : Z) (cw : R)
  (w : World) :
  py_in d [0; 1; 2]%Z = true ->
  framed (surface self) x w
    (snd (qfm_penalty_constraints residual_J residual_dJ residual_d2J
            self x d cw w)).
Proof.
  intros Hd. unfold qfm_penalty_constraints. rewrite Hd.
  destruct (d =? 0)%Z; [|destruct (d =? 1)%Z]; split_outcomes; exec;
    (split; [reflexivity|]); (eexists; split; [reflexivity|reflexivity]).
Qed.

(** The outcome of a call does not depend on the world it starts from. *)
Lemma label_indep (self : QfmSurface Field) (x : vec) (d : Z)
  (w w' : World) :
  fst (qfm_label_constraint self x d w)
  = fst (qfm_label_constraint self x d w').
Proof.
  destruct (py_in d [0; 1]%Z) eqn:Hd.
  - now rewrite !label_run.
  - unfold qfm_label_constraint. rewrite Hd. reflexivity.
Qed.

Lemma objective_indep (self : QfmSurface Field) (x : vec) (d : Z)
  (w w' : World) :
  fst (qfm_objective residual_J residual_dJ self x d w)
  = fst (qfm_objective residual_J residual_dJ self x d w').
Proof.
  destruct (py_in d [0; 1]%Z) eqn:Hd.
  - now rewrite !objective_run.
  - unfold qfm_objective. rewrite Hd. reflexivity.
Qed.

Lemma penalty_indep (self : QfmSurface Field) (x : vec) (d : Z) (cw : R)
  (w w' : World) :
  fst (qfm_penalty_constraints residual_J residual_dJ residual_d2J
         self x d cw w)
  = fst (qfm_penalty_constraints residual_J residual_dJ residual_d2J
           self x d cw w').
Proof.
  unfold qfm_penalty_constraints.
  destruct (py_in d [0; 1; 2]%Z); [|reflexivity].
  destruct (d =? 0)%Z; [|destruct (d =? 1)%Z]; split_outcomes; exec;
    reflexivity.
Qed.

(** Whether the penalty-combined objective returns or raises does not
    depend on the weight. *)
Lemma penalty_ok_any_weight (self : QfmSurface Field) (x : vec) (d : Z)
  (cw cw' : R) (w : World) :
  is_ok (fst (qfm_penalty_constraints residual_J residual_dJ residual_d2J
                self x d cw w))
  = is_ok (fst (qfm_penalty_constraints residual_J residual_dJ residual_d2J
                  self x d cw' w)).
Proof.
  unfold qfm_penalty_constraints.
  destruct (py_in d [0; 1; 2]%Z); [|reflexivity].
  destruct (d =? 0)%Z; exec; [reflexivity|].
  set (rl := label_J (label self) x - targetlabel self).
  pose proof (is_ok_binop1_smul1 Rplus (cw * rl) (cw' * rl)
                (residual_dJ (bs self) x) (label_dJ (label self) x)) as H1.
  destruct (binop1 Rplus _ (smul1 (cw * rl) _)) as [g|e],
           (binop1 Rplus _ (smul1 (cw' * rl) _)) as [g'|e'];
    try discriminate H1; [|reflexivity].
  destruct (d =? 1)%Z; exec; [reflexivity|].
  pose proof (shape_binop2_smul2 Rplus (cw * rl) (cw' * rl)
                (residual_d2J (bs self) x) (label_d2J (label self) x)) as H2.
  destruct (binop2 Rplus _ (smul2 (cw * rl) _)) as [t|e],
           (binop2 Rplus _ (smul2 (cw' * rl) _)) as [t'|e'];
    try contradiction; [|reflexivity].
  rewrite !outer_fit.
  pose proof (is_ok_binop2_shape Rplus t t' _ _ H2
                (shape_outer cw cw' (label_dJ (label self) x))) as H3.
  destruct (binop2 Rplus t _), (binop2 Rplus t' _);
    try discriminate H3; reflexivity.
Qed.

End Evaluators.

(** ** Running the drivers *)

Section DriverRuns.

Context {Field : Type}.
Variable residual_J : Field -> vec -> R.
Variable residual_dJ : Field -> vec -> vec.
Variable residual_d2J : Field -> vec -> mat.
Variable solver : string -> vec -> gmap string PyVal -> list string -> SolverRun.

Lemma con_run (self : QfmSurface Field) (x : vec) (w : World) :
  con self x w =
  (Ok (PyFloat (0.5 * (label_J (label self) x - targetlabel self) ^ 2)),
   mkWorld (<[surface self := x]> (heap w))
     (calls w ++ [EvSetDofs (surface self) x; EvLabelJ; EvLabelDJ])).
Proof.
  unfold con. cbv [mbind M_bind bind]. rewrite label_run by reflexivity.
  reflexivity.
Qed.

Lemma dcon_run (self : QfmSurface Field) (x : vec) (w : World) :
  dcon self x w =
  (Ok (PyArray (smul1 (label_J (label self) x - targetlabel self)
                  (label_dJ (label self) x))),
   mkWorld (<[surface self := x]> (heap w))
     (calls w ++ [EvSetDofs (surface self) x; EvLabelJ; EvLabelDJ])).
Proof.
  unfold dcon. cbv [mbind M_bind bind]. rewrite label_run by reflexivity.
  reflexivity.
Qed.

(** A driver returns exactly when the solver does, with the record built
    from the solver's result and the surface set to the solver's final
    iterate as its last step. *)
Lemma lbfgs_returns (self : QfmSurface Field) (tol : R) (maxiter : Z)
  (cw : R) (w w' : World) (d : gmap string PyVal) :
  minimize_qfm_penalty_constraints_LBFGS residual_J residual_dJ residual_d2J
    solver self tol maxiter cw w = (Ok d, w') ->
  exists x0 res w1,
    heap w !! surface self = Some x0
    /\ minimize solver
         (fun_penalty residual_J residual_dJ residual_d2J self cw) x0
         "L-BFGS-B" [] (lbfgs_options tol maxiter)
         (mkWorld (heap w) (calls w ++ [EvGetDofs (surface self)]))
       = (Ok res, w1)
    /\ d = record_of (surface self) res
    /\ w' = mkWorld (<[surface self := res_x res]> (heap w1))
              (calls w1 ++ [EvSetDofs (surface self) (res_x res)]).
Proof.
  unfold minimize_qfm_penalty_constraints_LBFGS. cbv [mbind M_bind bind].
  unfold get_dofs at 1.
  destruct (heap w !! surface self) as [x0|]; [|discriminate].
  fold (lbfgs_options tol maxiter).
  destruct (minimize _ _ _ _ _ _ _) as [[res|e] w1] eqn:E; [|discriminate].
  simpl. intros [= <- <-]. exists x0, res, w1.
  repeat split; trivial.
Qed.

Lemma slsqp_returns (self : QfmSurface Field) (tol : R) (maxiter : Z)
  (w w' : World) (d : gmap string PyVal) :
  minimize_qfm_exact_constraints_SLSQP residual_J residual_dJ
    solver self tol maxiter w = (Ok d, w') ->
  exists x0 res w1,
    heap w !! surface self = Some x0
    /\ minimize solver (fun_exact residual_J residual_dJ self) x0
         "SLSQP" (eq_constraints self) (slsqp_options tol maxiter)
         (mkWorld (heap w) (calls w ++ [EvGetDofs (surface self)]))
       = (Ok res, w1)
    /\ d = record_of (surface self) res
    /\ w' = mkWorld (<[surface self := res_x res]> (heap w1))
              (calls w1 ++ [EvSetDofs (surface self) (res_x res)]).
Proof.
  unfold minimize_qfm_exact_constraints_SLSQP. cbv [mbind M_bind bind].
  unfold get_dofs at 1.
  destruct (heap w !! surface self) as [x0|]; [|discriminate].
  fold (slsqp_options tol maxiter).
  destruct (minimize _ _ _ _ _ _ _) as [[res|e] w1] eqn:E; [|discriminate].
  simpl. intros [= <- <-]. exists x0, res, w1.
  repeat split; trivial.
Qed.

Lemma returned_record_of (s : loc) (res : OptimizeResult) :
  returned s res (record_of s res).
Proof. repeat split; reflexivity. Qed.

(** With [jac=True] the objective a driver hands to the solver answers with
    a pair, the same from every state. *)
Lemma fun_penalty_pair (self : QfmSurface Field) (cw : R) (x : vec)
  (w : World) (r : EvalResult) :
  fst (fun_penalty residual_J residual_dJ residual_d2J self cw x w) = Ok r ->
  exists v g, r = ValGrad v g.
Proof.
  unfold fun_penalty, qfm_penalty_constraints. simpl py_in. simpl Z.eqb. exec.
  destruct (binop1 _ _ _) as [g|e]; exec; simpl; [|discriminate].
  intros [= <-]. eauto.
Qed.

Lemma fun_exact_pair (self : QfmSurface Field) (x : vec) (w : World)
  (r : EvalResult) :
  fst (fun_exact residual_J residual_dJ self x w) = Ok r ->
  exists v g, r = ValGrad v g.
Proof.
  unfold fun_exact. rewrite objective_run by reflexivity. simpl.
  intros [= <-]. eauto.
Qed.

(** The result of a faithful solver run carries the value and the gradient
    of the objective at its final iterate. *)
Lemma run_solver_faithful (f : vec -> M EvalResult) (cs : list Constraint)
  (hist : list (vec * R * vec)) (t : SolverRun) :
  faithful hist t ->
  (forall x w w', fst (f x w) = fst (f x w')) ->
  (forall x w r, fst (f x w) = Ok r -> exists v g, r = ValGrad v g) ->
  (forall x v g, In (x, v, g) hist ->
     forall w0, fst (f x w0) = Ok (ValGrad v g)) ->
  forall w res w1,
    run_solver f cs t w = (Ok res, w1) ->
    forall w0,
      fst (f (res_x res) w0) = Ok (ValGrad (res_fun res) (res_jac res)).
Proof.
  intros Hfa Hind Hpair.
  induction Hfa as [hist res Hin | hist e | hist x k _ IH
                   | hist i x k _ IH | hist i x k _ IH];
    intros Hhist w res' w1; simpl.
  - intros [= <- <-]. now apply Hhist.
  - discriminate.
  - unfold bind. destruct (f x w) as [[r|e] w2] eqn:E; [|discriminate].
    destruct (Hpair x w r) as (v & g & ->); [now rewrite E|].
    apply (IH v g). intros x' v' g' [[= <- <- <-] | Hin] w0.
    + rewrite (Hind x w0 w), E. reflexivity.
    + now apply Hhist.
  - destruct (cs !! i) as [c|]; [|discriminate].
    unfold bind. destruct (c_fun c x w) as [[r|e] w2]; [|discriminate].
    now apply IH.
  - destruct (cs !! i) as [c|]; [|discriminate].
    unfold bind. destruct (c_jac c x w) as [[r|e] w2]; [|discriminate].
    now apply IH.
Qed.

End DriverRuns.

(** ** The specification's claims *)

Section Claims.

Context {Field : Type}.
Variable residual_J : Field -> vec -> R.
Variable residual_dJ : Field -> vec -> vec.
Variable residual_d2J : Field -> vec -> mat.
Variable solver : string -> vec -> gmap string PyVal -> list string -> SolverRun.

(** C1: for every dof vector [x], [qfm_label_constraint(x, 0)] returns
    [0.5*(label(x) - targetlabel)^2], which is never negative; at
    derivative order 1 it returns the same value together with the gradient
    [(label(x) - targetlabel) * d(label)/d(dofs)]. *)
Theorem qfm_label_constraint_half_square (self : QfmSurface Field) (x : vec)
  (w : World) :
  let rl := label_J (label self) x - targetlabel self in
  let dl := label_dJ (label self) x in
  (exists v,
     fst (qfm_label_constraint self x 0 w) = Ok (Val v)
     /\ v = 0.5 * rl ^ 2 /\ 0 <= v)
  /\ (exists v g,
        fst (qfm_label_constraint self x 1 w) = Ok (ValGrad v g)
        /\ v = 0.5 * rl ^ 2 /\ 0 <= v
        /\ length g = length dl
        /\ forall i, comp g i = rl * comp dl i).
Proof.
  intros rl dl. split.
  - rewrite label_run by reflexivity. eexists. split; [reflexivity|].
    split; [reflexivity|]. fold rl. nra.
  - rewrite label_run by reflexivity. eexists _, _. split; [reflexivity|].
    split; [reflexivity|]. fold rl dl. split; [nra|].
    split; [apply length_smul1|]. intros i. apply comp_smul1.
Qed.

(** C2: for every dof vector [x] and positive weight [w],
    [qfm_penalty_constraints] returns at order 1 the gradient
    [dr + w*rl*dl] and at order 2 also the Hessian
    [d2r + w*rl*d2l + w*(dl (x) dl)], with no further term. *)
Theorem qfm_penalty_constraints_derivatives (self : QfmSurface Field)
  (x : vec) (cw : R) (w : World) :
  0 < cw ->
  gradients_fit residual_dJ self x = true ->
  (exists v g,
     fst (qfm_penalty_constraints residual_J residual_dJ residual_d2J
            self x 1 cw w) = Ok (ValGrad v g)
     /\ penalty_formulas residual_J residual_dJ residual_d2J self x cw 1
          (ValGrad v g))
  /\ (hessians_fit residual_d2J self x = true ->
      exists v g h,
        fst (qfm_penalty_constraints residual_J residual_dJ residual_d2J
               self x 2 cw w) = Ok (ValGradHess v g h)
        /\ penalty_formulas residual_J residual_dJ residual_d2J self x cw 2
             (ValGradHess v g h)).
Proof.
  intros _ Hg. split.
  - now apply penalty_formulas1.
  - intros Hh. now apply penalty_formulas2.
Qed.

(** C3: for every dof vector [x] and every [w > 0],
    [qfm_penalty_constraints(x, 0, w)] equals
    [qfm_objective(x, 0) + w * qfm_label_constraint(x, 0)]. *)
Theorem penalty_is_objective_plus_weighted_constraint
  (self : QfmSurface Field) (x : vec) (cw : R) (w : World) :
  0 < cw ->
  exists p o c,
    fst (qfm_penalty_constraints residual_J residual_dJ residual_d2J
           self x 0 cw w) = Ok (Val p)
    /\ fst (qfm_objective residual_J residual_dJ self x 0 w) = Ok (Val o)
    /\ fst (qfm_label_constraint self x 0 w) = Ok (Val c)
    /\ p = o + cw * c.
Proof.
  intros _. rewrite penalty_run0, objective_run, label_run by reflexivity.
  eexists _, _, _. repeat (split; [reflexivity|]). simpl. ring.
Qed.

(** C4, as the code has it: the equality-constraint function handed to the
    constrained solver returns the squared penalty
    [0.5*(label(x) - targetlabel)^2], the value component of
    [qfm_label_constraint] at order 1; it is zero exactly when
    [label(x) = targetlabel], and it is what a solver asking for the
    constraint at [x] receives. *)
Theorem con_returns_squared_penalty (self : QfmSurface Field) (x : vec)
  (w : World) (f : vec -> M EvalResult) (k : PyVal -> SolverRun) :
  let rl := label_J (label self) x - targetlabel self in
  fst (con self x w) = Ok (PyFloat (0.5 * rl ^ 2))
  /\ (0.5 * rl ^ 2 = 0 <-> label_J (label self) x = targetlabel self)
  /\ run_solver f (eq_constraints self) (AskCon 0 x k) w
     = run_solver f (eq_constraints self) (k (PyFloat (0.5 * rl ^ 2)))
         (snd (con self x w)).
Proof.
  intros rl. split; [|split].
  - now rewrite con_run.
  - subst rl. split; intros H; nra.
  - simpl. unfold bind. now rewrite con_run.
Qed.

(** C5: after either solver driver returns, the solver has returned a
    result [res] and the driver has, as its last step, set the surface's
    dofs to the solver's final iterate [res.x]; the returned record is the
    one built from [res], with [res.fun] under ['fun'], [res.jac] under
    ['gradient'] and that same surface under ['s'], whatever the success
    flag.  When the solver reports an evaluation it made, [res.x] is the
    point that produced the returned ['fun'] and ['gradient']: the
    objective gives exactly these at the surface's dofs. *)
Theorem drivers_leave_final_iterate (self : QfmSurface Field) (tol : R)
  (maxiter : Z) (cw : R) (w w' : World) (d : gmap string PyVal)
  (f : vec -> M EvalResult) (method : string) (cs : list Constraint)
  (options : gmap string PyVal) :
  (minimize_qfm_penalty_constraints_LBFGS residual_J residual_dJ residual_d2J
     solver self tol maxiter cw w = (Ok d, w')
   /\ f = fun_penalty residual_J residual_dJ residual_d2J self cw
   /\ method = "L-BFGS-B" /\ cs = []
   /\ options = lbfgs_options tol maxiter)
  \/ (minimize_qfm_exact_constraints_SLSQP residual_J residual_dJ
        solver self tol maxiter w = (Ok d, w')
      /\ f = fun_exact residual_J residual_dJ self
      /\ method = "SLSQP" /\ cs = eq_constraints self
      /\ options = slsqp_options tol maxiter) ->
  exists x0 res w1,
    heap w !! surface self = Some x0
    /\ minimize solver f x0 method cs options
         (mkWorld (heap w) (calls w ++ [EvGetDofs (surface self)]))
       = (Ok res, w1)
    /\ d = record_of (surface self) res
    /\ returned (surface self) res d
    /\ w' = mkWorld (<[surface self := res_x res]> (heap w1))
              (calls w1 ++ [EvSetDofs (surface self) (res_x res)])
    /\ heap w' !! surface self = Some (res_x res)
    /\ (faithful [] (solver method x0 options (map c_type cs)) ->
        fst ((x ← get_dofs (surface self); f x) w')
        = Ok (ValGrad (res_fun res) (res_jac res))
        /\ d !! "fun" = Some (PyFloat (res_fun res))
        /\ d !! "gradient" = Some (PyArray (res_jac res))).
Proof.
  intros H.
  assert (Hrun : exists x0 res w1,
            heap w !! surface self = Some x0
            /\ minimize solver f x0 method cs options
                 (mkWorld (heap w) (calls w ++ [EvGetDofs (surface self)]))
               = (Ok res, w1)
            /\ d = record_of (surface self) res
            /\ w' = mkWorld (<[surface self := res_x res]> (heap w1))
                      (calls w1 ++ [EvSetDofs (surface self) (res_x res)])).
  { destruct H as [(H & -> & -> & -> & ->) | (H & -> & -> & -> & ->)].
    - now apply lbfgs_returns.
    - now apply slsqp_returns. }
  assert (Hf : (forall x w w', fst (f x w) = fst (f x w'))
               /\ (forall x w r, fst (f x w) = Ok r ->
                     exists v g, r = ValGrad v g)).
  { destruct H as [(_ & -> & _) | (_ & -> & _)]; split.
    - intros x wa wb. apply penalty_indep.
    - apply fun_penalty_pair.
    - intros x wa wb. apply objective_indep.
    - apply fun_exact_pair. }
  destruct Hf as [Hind Hpair].
  destruct Hrun as (x0 & res & w1 & Hx0 & Hmin & -> & ->).
  exists x0, res, w1.
  assert (Hx : heap (mkWorld (<[surface self := res_x res]> (heap w1))
                       (calls w1 ++ [EvSetDofs (surface self) (res_x res)]))
               !! surface self = Some (res_x res))
    by apply lookup_insert_eq.
  repeat (split; [first [assumption | reflexivity
                        | apply returned_record_of]|]).
  intros Hfa. split; [|split; reflexivity].
  unfold minimize in Hmin. cbv [mbind M_bind bind emit] in Hmin.
  cbv [mbind M_bind bind get_dofs]. rewrite Hx.
  match goal with
  | |- fst (f _ ?w2) = _ =>
      apply (run_solver_faithful f cs [] _ Hfa Hind Hpair
               (fun x v g Hin => False_ind _ Hin) _ res w1 Hmin w2)
  end.
Qed.

(** C6: for each evaluation function and each [x] with a permitted
    derivative order, when the call returns the surface's dof vector is
    [x], written before any label or residual quantity is read, and
    nothing but the surface's dofs has been changed; the call returns as
    soon as the collaborators' arrays have the promised shapes. *)
Theorem evaluators_write_dofs_first (self : QfmSurface Field) (x : vec)
  (d : Z) (cw : R) (w : World) :
  (py_in d [0; 1]%Z = true ->
   (settled (surface self) x (qfm_label_constraint self x d) w
    /\ is_ok (fst (qfm_label_constraint self x d w)) = true)
   /\ (settled (surface self) x
         (qfm_objective residual_J residual_dJ self x d) w
       /\ is_ok (fst (qfm_objective residual_J residual_dJ self x d w))
          = true))
  /\ (py_in d [0; 1; 2]%Z = true ->
      settled (surface self) x
        (qfm_penalty_constraints residual_J residual_dJ residual_d2J
           self x d cw) w
      /\ (gradients_fit residual_dJ self x = true ->
          hessians_fit residual_d2J self x = true ->
          is_ok (fst (qfm_penalty_constraints residual_J residual_dJ
                        residual_d2J self x d cw w)) = true)).
Proof.
  assert (Hset : forall (run : M EvalResult),
            framed (surface self) x w (snd (run w)) ->
            (forall w0, fst (run w0) = fst (run w)) ->
            settled (surface self) x run w).
  { intros run Hf Hi. split; [exact Hf|]. split; [|exact Hi].
    destruct Hf as [-> _]. apply lookup_insert_eq. }
  split.
  - intros Hd. split; split.
    + apply Hset; [now apply label_frame|]. intros w0. apply label_indep.
    + rewrite label_run by assumption. reflexivity.
    + apply Hset; [now apply objective_frame|].
      intros w0. apply objective_indep.
    + rewrite objective_run by assumption. reflexivity.
  - intros Hd. split.
    + apply Hset; [now apply penalty_frame|].
      intros w0. apply penalty_indep.
    + intros Hg Hh. apply py_in_012 in Hd as [-> | [-> | ->]].
      * now rewrite penalty_run0.
      * now rewrite penalty_run1.
      * now rewrite penalty_run2.
Qed.

(** C7: calling [qfm_label_constraint] or [qfm_objective] with a derivative
    order outside {0, 1}, or [qfm_penalty_constraints] with one outside
    {0, 1, 2}, raises at once: no result is returned and nothing has been
    written. *)
Theorem invalid_derivative_order_fails_fast (self : QfmSurface Field)
  (x : vec) (d : Z) (cw : R) (w : World) :
  (d <> 0%Z -> d <> 1%Z ->
   qfm_label_constraint self x d w = (Raise AssertionError, w)
   /\ qfm_objective residual_J residual_dJ self x d w
      = (Raise AssertionError, w))
  /\ (d <> 0%Z -> d <> 1%Z -> d <> 2%Z ->
      qfm_penalty_constraints residual_J residual_dJ residual_d2J
        self x d cw w = (Raise AssertionError, w)).
Proof.
  split.
  - intros H0 H1.
    assert (Hd : py_in d [0; 1]%Z = false).
    { destruct (py_in d [0; 1]%Z) eqn:E; [|reflexivity].
      apply py_in_01 in E. tauto. }
    unfold qfm_label_constraint, qfm_objective. now rewrite Hd.
  - intros H0 H1 H2.
    assert (Hd : py_in d [0; 1; 2]%Z = false).
    { destruct (py_in d [0; 1; 2]%Z) eqn:E; [|reflexivity].
      apply py_in_012 in E. tauto. }
    unfold qfm_penalty_constraints. now rewrite Hd.
Qed.

(** C8: calling the same evaluator twice in succession with the same [x]
    (and weight), with nothing changed in between, gives the same result
    both times, and the second call leaves the surface as the first did. *)
Theorem evaluators_idempotent (self : QfmSurface Field) (x : vec) (d : Z)
  (cw : R) (w : World) :
  let twice (run : M EvalResult) :=
    fst (run (snd (run w))) = fst (run w)
    /\ heap (snd (run (snd (run w)))) = heap (snd (run w)) in
  twice (qfm_label_constraint self x d)
  /\ twice (qfm_objective residual_J residual_dJ self x d)
  /\ twice (qfm_penalty_constraints residual_J residual_dJ residual_d2J
              self x d cw).
Proof.
  assert (Hheap : forall (run : M EvalResult),
            (forall w0, framed (surface self) x w0 (snd (run w0))) ->
            heap (snd (run (snd (run w)))) = heap (snd (run w))).
  { intros run Hf. destruct (Hf (snd (run w))) as [-> _].
    destruct (Hf w) as [-> _]. apply insert_insert_eq. }
  simpl. repeat split.
  - apply label_indep.
  - destruct (py_in d [0; 1]%Z) eqn:Hd.
    + apply Hheap. intros w0. now apply label_frame.
    + unfold qfm_label_constraint. now rewrite Hd.
  - apply objective_indep.
  - destruct (py_in d [0; 1]%Z) eqn:Hd.
    + apply Hheap. intros w0. now apply objective_frame.
    + unfold qfm_objective. now rewrite Hd.
  - apply penalty_indep.
  - destruct (py_in d [0; 1; 2]%Z) eqn:Hd.
    + apply Hheap. intros w0. now apply penalty_frame.
    + unfold qfm_penalty_constraints. now rewrite Hd.
Qed.

(** C9: two orchestrators with the same field model, surface and label
    functional and any two target labels give the same [qfm_objective]
    result, and leave the same state, for every [x] and every derivative
    order in {0, 1}. *)
Theorem objective_ignores_targetlabel (self1 self2 : QfmSurface Field)
  (x : vec) (d : Z) (w : World) :
  bs self1 = bs self2 ->
  surface self1 = surface self2 ->
  label self1 = label self2 ->
  py_in d [0; 1]%Z = true ->
  qfm_objective residual_J residual_dJ self1 x d w
  = qfm_objective residual_J residual_dJ self2 x d w.
Proof.
  intros Hb Hs _ Hd. rewrite !objective_run by assumption.
  now rewrite Hb, Hs.
Qed.

(** C10: [qfm_penalty_constraints] does not validate the weight: whether it
    returns does not depend on the weight, and for every real weight, zero
    and negative ones included, and every order in {0, 1, 2} it returns the
    result given by the same formulas. *)
Theorem penalty_accepts_any_weight (self : QfmSurface Field) (x : vec)
  (d : Z) (cw : R) (w : World) :
  (forall cw',
     is_ok (fst (qfm_penalty_constraints residual_J residual_dJ
                   residual_d2J self x d cw w))
     = is_ok (fst (qfm_penalty_constraints residual_J residual_dJ
                     residual_d2J self x d cw' w)))
  /\ (py_in d [0; 1; 2]%Z = true ->
      gradients_fit residual_dJ self x = true ->
      hessians_fit residual_d2J self x = true ->
      exists res,
        fst (qfm_penalty_constraints residual_J residual_dJ residual_d2J
               self x d cw w) = Ok res
        /\ penalty_formulas residual_J residual_dJ residual_d2J
             self x cw d res).
Proof.
  split.
  - intros cw'. apply penalty_ok_any_weight.
  - intros Hd Hg Hh. apply py_in_012 in Hd as [-> | [-> | ->]].
    + destruct (penalty_formulas0 residual_J residual_dJ residual_d2J
                  self x cw w) as (v & H1 & H2).
      now exists (Val v).
    + destruct (penalty_formulas1 residual_J residual_dJ residual_d2J
                  self x cw w Hg) as (v & g & H1 & H2).
      now exists (ValGrad v g).
    + destruct (penalty_formulas2 residual_J residual_dJ residual_d2J
                  self x cw w Hg Hh)
        as (v & g & h & H1 & H2).
      now exists (ValGradHess v g h).
Qed.

End Claims.

(** ** The claims on the small instance *)

Import Example.

Lemma qfm_penalty_constraints_derivatives_witness :
  (exists v g,
     fst (toy_penalty toy_self toy_x 1 3 toy_world) = Ok (ValGrad v g)
     /\ toy_formulas toy_self toy_x 3 1 (ValGrad v g))
  /\ (exists v g h,
        fst (toy_penalty toy_self toy_x 2 3 toy_world) = Ok (ValGradHess v g h)
        /\ toy_formulas toy_self toy_x 3 2 (ValGradHess v g h)).
Proof.
  assert (Hw : 0 < 3) by lra.
  assert (Hg : gradients_fit toy_residual_dJ toy_self toy_x = true)
    by reflexivity.
  assert (Hh : hessians_fit toy_residual_d2J toy_self toy_x = true)
    by reflexivity.
  destruct (qfm_penalty_constraints_derivatives toy_residual_J
              toy_residual_dJ toy_residual_d2J toy_self toy_x 3 toy_world
              Hw Hg) as [H1 H2].
  split; [exact H1 | exact (H2 Hh)].
Defined.

Lemma penalty_is_objective_plus_weighted_constraint_witness :
  exists p o c,
    fst (toy_penalty toy_self toy_x 0 3 toy_world) = Ok (Val p)
    /\ fst (toy_objective toy_self toy_x 0 toy_world) = Ok (Val o)
    /\ fst (qfm_label_constraint toy_self toy_x 0 toy_world) = Ok (Val c)
    /\ p = o + 3 * c.
Proof.
  apply (penalty_is_objective_plus_weighted_constraint toy_residual_J
           toy_residual_dJ toy_residual_d2J toy_self toy_x 3 toy_world).
  lra.
Defined.

(** C4, as the specification words it, fails: at [toy_x] the label deviates
    from its target by 1 and the constraint function returns 0.5. *)
Lemma con_is_not_label_deviation :
  fst (con toy_self toy_x toy_world)
  <> Ok (PyFloat (label_J (label toy_self) toy_x - targetlabel toy_self)).
Proof. rewrite con_run. simpl. intros [= H]. lra. Qed.

Lemma drivers_leave_final_iterate_witness :
  (exists d w' res,
     toy_lbfgs toy_self 0.001 1000 1 toy_world = (Ok d, w')
     /\ d = record_of toy_surface res
     /\ heap w' !! toy_surface = Some (res_x res)
     /\ fst ((x ← get_dofs toy_surface;
              fun_penalty toy_residual_J toy_residual_dJ toy_residual_d2J
                toy_self 1 x) w')
        = Ok (ValGrad (res_fun res) (res_jac res))
     /\ d !! "fun" = Some (PyFloat (res_fun res))
     /\ d !! "gradient" = Some (PyArray (res_jac res))
     /\ d !! "success" = Some (PyBool false)
     /\ heap w' !! toy_surface = Some toy_x)
  /\ (exists d w' res,
        toy_slsqp toy_self 0.001 1000 toy_world = (Ok d, w')
        /\ d = record_of toy_surface res
        /\ heap w' !! toy_surface = Some (res_x res)
        /\ fst ((x ← get_dofs toy_surface;
                 fun_exact toy_residual_J toy_residual_dJ toy_self x) w')
           = Ok (ValGrad (res_fun res) (res_jac res))
        /\ d !! "fun" = Some (PyFloat (res_fun res))
        /\ d !! "gradient" = Some (PyArray (res_jac res))
        /\ d !! "success" = Some (PyBool false)
        /\ heap w' !! toy_surface = Some toy_x).
Proof.
  assert (Hfa : forall method x0 options ctypes,
            faithful [] (toy_solver method x0 options ctypes)).
  { intros method x0 options ctypes. unfold toy_solver.
    apply fa_fun. intros v g. apply fa_fun. intros v' g'.
    destruct ctypes as [|c ctypes].
    - apply fa_finish. simpl. auto.
    - apply fa_con. intros p. apply fa_finish. simpl. auto. }
  split.
  - destruct (toy_lbfgs toy_self 0.001 1000 1 toy_world) as [[d|e] w'] eqn:E;
      [|vm_compute in E; discriminate E].
    destruct (drivers_leave_final_iterate toy_residual_J toy_residual_dJ
                toy_residual_d2J toy_solver toy_self 0.001 1000 1 toy_world
                w' d _ _ _ _
                (or_introl (conj E (conj eq_refl (conj eq_refl
                                     (conj eq_refl eq_refl))))))
      as (x0 & res & w1 & _ & _ & Hd & _ & _ & Hx & Hpt).
    destruct (Hpt (Hfa _ _ _ _)) as (Hval & Hfun & Hgrad).
    exists d, w', res.
    do 6 (split; [first [reflexivity | assumption]|]).
    vm_compute in E. injection E as Ed Ew. subst d w'.
    split; vm_compute; reflexivity.
  - destruct (toy_slsqp toy_self 0.001 1000 toy_world) as [[d|e] w'] eqn:E;
      [|vm_compute in E; discriminate E].
    destruct (drivers_leave_final_iterate toy_residual_J toy_residual_dJ
                toy_residual_d2J toy_solver toy_self 0.001 1000 1 toy_world
                w' d _ _ _ _
                (or_intror (conj E (conj eq_refl (conj eq_refl
                                     (conj eq_refl eq_refl))))))
      as (x0 & res & w1 & _ & _ & Hd & _ & _ & Hx & Hpt).
    destruct (Hpt (Hfa _ _ _ _)) as (Hval & Hfun & Hgrad).
    exists d, w', res.
    do 6 (split; [first [reflexivity | assumption]|]).
    vm_compute in E. injection E as Ed Ew. subst d w'.
    split; vm_compute; reflexivity.
Defined.

Lemma evaluators_write_dofs_first_witness :
  (settled toy_surface toy_x (qfm_label_constraint toy_self toy_x 1)
     toy_world
   /\ is_ok (fst (qfm_label_constraint toy_self toy_x 1 toy_world)) = true)
  /\ (settled toy_surface toy_x (toy_objective toy_self toy_x 1) toy_world
      /\ is_ok (fst (toy_objective toy_self toy_x 1 toy_world)) = true)
  /\ settled toy_surface toy_x (toy_penalty toy_self toy_x 2 3) toy_world
  /\ is_ok (fst (toy_penalty toy_self toy_x 2 3 toy_world)) = true.
Proof.
  destruct (evaluators_write_dofs_first toy_residual_J toy_residual_dJ
              toy_residual_d2J toy_self toy_x 1 3 toy_world) as [H1 _].
  destruct (evaluators_write_dofs_first toy_residual_J toy_residual_dJ
              toy_residual_d2J toy_self toy_x 2 3 toy_world) as [_ H2].
  destruct (H1 eq_refl) as [Hl Ho].
  destruct (H2 eq_refl) as [Hp Hok].
  split; [exact Hl|]. split; [exact Ho|]. split; [exact Hp|].
  apply Hok; reflexivity.
Defined.

Lemma invalid_derivative_order_fails_fast_witness :
  (qfm_label_constraint toy_self toy_x 2 toy_world
   = (Raise AssertionError, toy_world)
   /\ toy_objective toy_self toy_x 2 toy_world
      = (Raise AssertionError, toy_world))
  /\ toy_penalty toy_self toy_x 3 1 toy_world
     = (Raise AssertionError, toy_world).
Proof.
  destruct (invalid_derivative_order_fails_fast toy_residual_J
              toy_residual_dJ toy_residual_d2J toy_self toy_x 2 1 toy_world)
    as [H1 _].
  destruct (invalid_derivative_order_fails_fast toy_residual_J
              toy_residual_dJ toy_residual_d2J toy_self toy_x 3 1 toy_world)
    as [_ H2].
  split.
  - apply H1; discriminate.
  - apply H2; discriminate.
Defined.

Lemma objective_ignores_targetlabel_witness :
  targetlabel toy_self <> targetlabel toy_self'
  /\ toy_objective toy_self toy_x 1 toy_world
     = toy_objective toy_self' toy_x 1 toy_world.
Proof.
  split.
  - simpl. lra.
  - apply (objective_ignores_targetlabel toy_residual_J toy_residual_dJ
             toy_self toy_self' toy_x 1 toy_world); reflexivity.
Defined.

Lemma penalty_accepts_any_weight_witness :
  (exists res,
     fst (toy_penalty toy_self toy_x 2 0 toy_world) = Ok res
     /\ toy_formulas toy_self toy_x 0 2 res)
  /\ (exists res,
        fst (toy_penalty toy_self toy_x 2 (-1) toy_world) = Ok res
        /\ toy_formulas toy_self toy_x (-1) 2 res).
Proof.
  destruct (penalty_accepts_any_weight toy_residual_J toy_residual_dJ
              toy_residual_d2J toy_self toy_x 2 0 toy_world) as [_ H0].
  destruct (penalty_accepts_any_weight toy_residual_J toy_residual_dJ
              toy_residual_d2J toy_self toy_x 2 (-1) toy_world) as [_ H1].
  split; [apply H0 | apply H1]; reflexivity.
Defined.

(** ** Further properties of the evaluation functions *)

Lemma zip_with_plus_null (c : R) (a b : vec) :
  c = 0 -> length a = length b -> zip_with Rplus a (smul1 c b) = a.
Proof.
  intros ->. revert b.
  induction a as [|u a IH]; intros [|v b] Hl; simpl in *; try lia;
    [reflexivity|].
  rewrite IH by lia. f_equal. ring.
Qed.

Section MoreEvaluators.

Context {Field : Type}.
Variable residual_J : Field -> vec -> R.
Variable residual_dJ : Field -> vec -> vec.
Variable residual_d2J : Field -> vec -> mat.

(** X1: with a zero weight, or at a point where the label meets its target,
    the penalty-combined objective is the plain objective, value and
    gradient alike. *)
Theorem penalty_reduces_to_objective (self : QfmSurface Field) (x : vec)
  (d : Z) (cw : R) (w : World) :
  py_in d [0; 1]%Z = true ->
  (d = 1%Z -> gradients_fit residual_dJ self x = true) ->
  cw = 0 \/ label_J (label self) x = targetlabel self ->
  fst (qfm_penalty_constraints residual_J residual_dJ residual_d2J
         self x d cw w)
  = fst (qfm_objective residual_J residual_dJ self x d w).
Proof.
  intros Hd Hg Hz.
  assert (Hnull : cw * (label_J (label self) x - targetlabel self) = 0).
  { destruct Hz as [-> | ->]; ring. }
  assert (Hval : residual_J (bs self) x
                 + 0.5 * cw * (label_J (label self) x - targetlabel self) ^ 2
                 = residual_J (bs self) x).
  { destruct Hz as [-> | ->]; ring. }
  apply py_in_01 in Hd as [-> | ->].
  - rewrite penalty_run0, objective_run by reflexivity.
    cbv zeta. cbn [fst]. now rewrite Hval.
  - specialize (Hg eq_refl).
    rewrite penalty_run1, objective_run by (assumption || reflexivity).
    cbv zeta. cbn [fst].
    destruct (gradients_fit_spec residual_dJ self x Hg) as [Hr Hl].
    rewrite zip_with_plus_null by congruence.
    now rewrite Hval.
Qed.

(** X4: for weights [0 <= w1 <= w2] the value of the penalty-combined
    objective is at least the objective and does not decrease with the
    weight. *)
Theorem penalty_value_monotone (self : QfmSurface Field) (x : vec)
  (cw1 cw2 : R) (w : World) :
  0 <= cw1 -> cw1 <= cw2 ->
  exists o p1 p2,
    fst (qfm_objective residual_J residual_dJ self x 0 w) = Ok (Val o)
    /\ fst (qfm_penalty_constraints residual_J residual_dJ residual_d2J
              self x 0 cw1 w) = Ok (Val p1)
    /\ fst (qfm_penalty_constraints residual_J residual_dJ residual_d2J
              self x 0 cw2 w) = Ok (Val p2)
    /\ o <= p1 /\ p1 <= p2.
Proof.
  intros H1 H2. rewrite objective_run, !penalty_run0 by reflexivity.
  eexists _, _, _. simpl. repeat (split; [reflexivity|]).
  pose proof (pow2_ge_0 (label_J (label self) x - targetlabel self)) as Hp.
  split; nra.
Qed.

(** X5: [qfm_objective] never consults the label functional or the target
    label, and [qfm_label_constraint] never consults the field model: the
    whole outcome, state included, is the same for orchestrators that
    differ in those only; this holds for invalid orders too. *)
Theorem evaluators_read_their_own_collaborators
  (self1 self2 : QfmSurface Field) (x : vec) (d : Z) (w : World) :
  surface self1 = surface self2 ->
  (bs self1 = bs self2 ->
   qfm_objective residual_J residual_dJ self1 x d w
   = qfm_objective residual_J residual_dJ self2 x d w)
  /\ (label self1 = label self2 -> targetlabel self1 = targetlabel self2 ->
      qfm_label_constraint self1 x d w = qfm_label_constraint self2 x d w).
Proof.
  intros Hs. split.
  - intros Hb. unfold qfm_objective.
    destruct (py_in d [0; 1]%Z); [|reflexivity].
    destruct (d =? 0)%Z; exec; now rewrite Hs, Hb.
  - intros Hl Ht. unfold qfm_label_constraint.
    destruct (py_in d [0; 1]%Z); [|reflexivity].
    destruct (truthy d); exec; now rewrite Hs, Hl, Ht.
Qed.

(** X12: asking for derivatives does not change the value: each evaluation
    function returns at order 1 the value it returns at order 0, and the
    penalty-combined objective returns at order 2 the value and the
    gradient it returns at order 1. *)
Theorem derivative_order_keeps_value (self : QfmSurface Field) (x : vec)
  (cw : R) (w : World) :
  (exists v g,
     fst (qfm_label_constraint self x 0 w) = Ok (Val v)
     /\ fst (qfm_label_constraint self x 1 w) = Ok (ValGrad v g))
  /\ (exists v g,
        fst (qfm_objective residual_J residual_dJ self x 0 w) = Ok (Val v)
        /\ fst (qfm_objective residual_J residual_dJ self x 1 w)
           = Ok (ValGrad v g))
  /\ (gradients_fit residual_dJ self x = true ->
      exists v g,
        fst (qfm_penalty_constraints residual_J residual_dJ residual_d2J
               self x 0 cw w) = Ok (Val v)
        /\ fst (qfm_penalty_constraints residual_J residual_dJ residual_d2J
                  self x 1 cw w) = Ok (ValGrad v g)
        /\ (hessians_fit residual_d2J self x = true ->
            exists h,
              fst (qfm_penalty_constraints residual_J residual_dJ
                     residual_d2J self x 2 cw w) = Ok (ValGradHess v g h))).
Proof.
  split; [|split].
  - rewrite !label_run by reflexivity. eexists _, _. split; reflexivity.
  - rewrite !objective_run by reflexivity. eexists _, _. split; reflexivity.
  - intros Hg. rewrite penalty_run0, penalty_run1 by assumption.
    eexists _, _. split; [reflexivity|]. split; [reflexivity|].
    intros Hh. rewrite penalty_run2 by assumption.
    eexists. reflexivity.
Qed.

End MoreEvaluators.

(** ** Further properties of the drivers *)

Lemma only_at_refl (s : loc) (w : World) : only_at s w w.
Proof. intros l _. reflexivity. Qed.

Lemma only_at_trans (s : loc) (w1 w2 w3 : World) :
  only_at s w1 w2 -> only_at s w2 w3 -> only_at s w1 w3.
Proof. intros H12 H23 l Hl. now rewrite H23, H12. Qed.

Lemma framed_only_at (s : loc) (x : vec) (w w' : World) :
  framed s x w w' -> only_at s w w'.
Proof.
  intros [H _] l Hl. rewrite H. apply lookup_insert_ne. congruence.
Qed.

(** A solver run changes no object its callbacks leave alone. *)
Lemma run_solver_only_at (s : loc) (f : vec -> M EvalResult)
  (cs : list Constraint) (t : SolverRun) :
  (forall x w, only_at s w (snd (f x w))) ->
  Forall (fun c => forall x w, only_at s w (snd (c_fun c x w))
                               /\ only_at s w (snd (c_jac c x w))) cs ->
  forall w, only_at s w (snd (run_solver f cs t w)).
Proof.
  intros Hf Hcs.
  induction t as [res | e | x k IH | i x k IH | i x k IH]; intros w; simpl.
  - apply only_at_refl.
  - apply only_at_refl.
  - unfold bind. pose proof (Hf x w) as H.
    destruct (f x w) as [[v|e] w1]; simpl in *; [|exact H].
    eapply only_at_trans; [exact H | apply IH].
  - destruct (cs !! i) as [c|] eqn:Ec; [|apply only_at_refl].
    apply list_elem_of_lookup_2 in Ec.
    rewrite List.Forall_forall in Hcs.
    apply list_elem_of_In in Ec.
    destruct (Hcs c Ec x w) as [H _].
    unfold bind. destruct (c_fun c x w) as [[v|e] w1]; simpl in *; [|exact H].
    eapply only_at_trans; [exact H | apply IH].
  - destruct (cs !! i) as [c|] eqn:Ec; [|apply only_at_refl].
    apply list_elem_of_lookup_2 in Ec.
    rewrite List.Forall_forall in Hcs.
    apply list_elem_of_In in Ec.
    destruct (Hcs c Ec x w) as [_ H].
    unfold bind. destruct (c_jac c x w) as [[v|e] w1]; simpl in *; [|exact H].
    eapply only_at_trans; [exact H | apply IH].
Qed.

(** The outcome of a solver run does not depend on the world it starts
    from when the outcomes of its callbacks do not. *)
Lemma run_solver_indep (f : vec -> M EvalResult) (cs : list Constraint)
  (t : SolverRun) :
  (forall x w w', fst (f x w) = fst (f x w')) ->
  Forall (fun c => forall x w w',
            fst (c_fun c x w) = fst (c_fun c x w')
            /\ fst (c_jac c x w) = fst (c_jac c x w')) cs ->
  forall w w', fst (run_solver f cs t w) = fst (run_solver f cs t w').
Proof.
  intros Hf Hcs.
  induction t as [res | e | x k IH | i x k IH | i x k IH]; intros w w';
    simpl; trivial.
  - unfold bind. pose proof (Hf x w w') as H.
    destruct (f x w) as [[v|e] w1], (f x w') as [[v'|e'] w1'];
      simpl in *; try discriminate;
      [injection H as <-; apply IH | now injection H as <-].
  - destruct (cs !! i) as [c|] eqn:Ec; [|reflexivity].
    apply list_elem_of_lookup_2, list_elem_of_In in Ec.
    rewrite List.Forall_forall in Hcs.
    destruct (Hcs c Ec x w w') as [H _]. unfold bind.
    destruct (c_fun c x w) as [[v|e] w1], (c_fun c x w') as [[v'|e'] w1'];
      simpl in *; try discriminate;
      [injection H as <-; apply IH | now injection H as <-].
  - destruct (cs !! i) as [c|] eqn:Ec; [|reflexivity].
    apply list_elem_of_lookup_2, list_elem_of_In in Ec.
    rewrite List.Forall_forall in Hcs.
    destruct (Hcs c Ec x w w') as [_ H]. unfold bind.
    destruct (c_jac c x w) as [[v|e] w1], (c_jac c x w') as [[v'|e'] w1'];
      simpl in *; try discriminate;
      [injection H as <-; apply IH | now injection H as <-].
Qed.

(** A well-behaved solver run returns when its callbacks do. *)
Lemma run_solver_returns (f : vec -> M EvalResult) (cs : list Constraint)
  (t : SolverRun) :
  well_behaved (length cs) t ->
  (forall x w, is_ok (fst (f x w)) = true) ->
  Forall (fun c => forall x w, is_ok (fst (c_fun c x w)) = true
                               /\ is_ok (fst (c_jac c x w)) = true) cs ->
  forall w, is_ok (fst (run_solver f cs t w)) = true.
Proof.
  intros Hwb Hf Hcs.
  induction Hwb as [res | x k _ IH | i x k Hi _ IH | i x k Hi _ IH];
    intros w; simpl.
  - reflexivity.
  - unfold bind. pose proof (Hf x w) as H.
    destruct (f x w) as [[v|e] w1]; simpl in *; [apply IH | discriminate].
  - destruct (lookup_lt_is_Some_2 cs i Hi) as [c Ec]. rewrite Ec.
    apply list_elem_of_lookup_2, list_elem_of_In in Ec.
    rewrite List.Forall_forall in Hcs.
    destruct (Hcs c Ec x w) as [H _]. unfold bind.
    destruct (c_fun c x w) as [[v|e] w1]; simpl in *;
      [apply IH | discriminate].
  - destruct (lookup_lt_is_Some_2 cs i Hi) as [c Ec]. rewrite Ec.
    apply list_elem_of_lookup_2, list_elem_of_In in Ec.
    rewrite List.Forall_forall in Hcs.
    destruct (Hcs c Ec x w) as [_ H]. unfold bind.
    destruct (c_jac c x w) as [[v|e] w1]; simpl in *;
      [apply IH | discriminate].
Qed.

Section MoreDrivers.

Context {Field : Type}.
Variable residual_J : Field -> vec -> R.
Variable residual_dJ : Field -> vec -> vec.
Variable residual_d2J : Field -> vec -> mat.
Variable solver : string -> vec -> gmap string PyVal -> list string -> SolverRun.

Lemma fun_penalty_only_at (self : QfmSurface Field) (cw : R) (x : vec)
  (w : World) :
  only_at (surface self) w
    (snd (fun_penalty residual_J residual_dJ residual_d2J self cw x w)).
Proof.
  apply (framed_only_at _ x), penalty_frame. reflexivity.
Qed.

Lemma fun_exact_only_at (self : QfmSurface Field) (x : vec) (w : World) :
  only_at (surface self) w (snd (fun_exact residual_J residual_dJ self x w)).
Proof.
  apply (framed_only_at _ x), objective_frame. reflexivity.
Qed.

Lemma eq_constraints_only_at (self : QfmSurface Field) :
  Forall (fun c => forall x w,
            only_at (surface self) w (snd (c_fun c x w))
            /\ only_at (surface self) w (snd (c_jac c x w)))
    (eq_constraints self).
Proof.
  repeat constructor; simpl; rewrite ?con_run, ?dcon_run; simpl;
    intros l Hl; simpl; apply lookup_insert_ne; congruence.
Qed.

(** X6: whatever the solver does and whether the driver returns or raises,
    a driver changes no object of the heap but the orchestrator's
    surface. *)
Theorem drivers_touch_only_the_surface (self : QfmSurface Field) (tol : R)
  (maxiter : Z) (cw : R) (w : World) :
  only_at (surface self) w
    (snd (minimize_qfm_penalty_constraints_LBFGS residual_J residual_dJ
            residual_d2J solver self tol maxiter cw w))
  /\ only_at (surface self) w
       (snd (minimize_qfm_exact_constraints_SLSQP residual_J residual_dJ
               solver self tol maxiter w)).
Proof.
  split.
  - unfold minimize_qfm_penalty_constraints_LBFGS, minimize.
    cbv [mbind M_bind bind get_dofs emit].
    destruct (heap w !! surface self) as [x0|]; [|apply only_at_refl].
    match goal with
    | |- context [run_solver ?f ?cs ?t ?w0] =>
        pose proof (run_solver_only_at (surface self) f cs t
                      (fun_penalty_only_at self cw) (List.Forall_nil _) w0) as H;
        destruct (run_solver f cs t w0) as [[res|e] w1]
    end; simpl in *.
    + intros l Hl. simpl. rewrite lookup_insert_ne by congruence.
      now apply H.
    + exact H.
  - unfold minimize_qfm_exact_constraints_SLSQP, minimize.
    cbv [mbind M_bind bind get_dofs emit].
    destruct (heap w !! surface self) as [x0|]; [|apply only_at_refl].
    match goal with
    | |- context [run_solver ?f ?cs ?t ?w0] =>
        pose proof (run_solver_only_at (surface self) f cs t
                      (fun_exact_only_at self) (eq_constraints_only_at self)
                      w0) as H;
        destruct (run_solver f cs t w0) as [[res|e] w1]
    end; simpl in *.
    + intros l Hl. simpl. rewrite lookup_insert_ne by congruence.
      now apply H.
    + exact H.
Qed.

Lemma eq_constraints_indep (self : QfmSurface Field) :
  Forall (fun c => forall x w w',
            fst (c_fun c x w) = fst (c_fun c x w')
            /\ fst (c_jac c x w) = fst (c_jac c x w'))
    (eq_constraints self).
Proof.
  repeat constructor; simpl; now rewrite ?con_run, ?dcon_run.
Qed.

Lemma eq_constraints_return (self : QfmSurface Field) :
  Forall (fun c => forall x w,
            is_ok (fst (c_fun c x w)) = true
            /\ is_ok (fst (c_jac c x w)) = true)
    (eq_constraints self).
Proof.
  repeat constructor; simpl; now rewrite ?con_run, ?dcon_run.
Qed.

Lemma fun_exact_returns (self : QfmSurface Field) (x : vec) (w : World) :
  is_ok (fst (fun_exact residual_J residual_dJ self x w)) = true.
Proof. unfold fun_exact. now rewrite objective_run. Qed.

Lemma fun_penalty_returns (self : QfmSurface Field) (cw : R) :
  (forall x, gradients_fit residual_dJ self x = true) ->
  forall x w,
    is_ok (fst (fun_penalty residual_J residual_dJ residual_d2J self cw x w))
    = true.
Proof. intros Hfit x w. unfold fun_penalty. now rewrite penalty_run1. Qed.

(** X7: the outcome of a driver, the returned record included, depends on
    the state it starts from through the dofs of the orchestrator's surface
    only. *)
Theorem drivers_depend_on_dofs_only (self : QfmSurface Field) (tol : R)
  (maxiter : Z) (cw : R) (w1 w2 : World) :
  heap w1 !! surface self = heap w2 !! surface self ->
  fst (minimize_qfm_penalty_constraints_LBFGS residual_J residual_dJ
         residual_d2J solver self tol maxiter cw w1)
  = fst (minimize_qfm_penalty_constraints_LBFGS residual_J residual_dJ
           residual_d2J solver self tol maxiter cw w2)
  /\ fst (minimize_qfm_exact_constraints_SLSQP residual_J residual_dJ
            solver self tol maxiter w1)
     = fst (minimize_qfm_exact_constraints_SLSQP residual_J residual_dJ
              solver self tol maxiter w2).
Proof.
  intros Hs. split.
  - unfold minimize_qfm_penalty_constraints_LBFGS, minimize.
    cbv [mbind M_bind bind get_dofs emit]. rewrite Hs.
    destruct (heap w2 !! surface self) as [x0|]; [|reflexivity].
    match goal with
    | |- context [run_solver ?f ?cs ?t ?wa] =>
        match goal with
        | |- _ = fst (match run_solver _ _ _ ?wb with _ => _ end) =>
            pose proof (run_solver_indep f cs t
                          (fun x w w' =>
                             penalty_indep residual_J residual_dJ
                               residual_d2J self x 1 cw w w')
                          (List.Forall_nil _) wa wb) as H;
            destruct (run_solver f cs t wa) as [[res|e] wa'],
                     (run_solver f cs t wb) as [[res'|e'] wb']
        end
    end; simpl in *; try discriminate; now injection H as <-.
  - unfold minimize_qfm_exact_constraints_SLSQP, minimize.
    cbv [mbind M_bind bind get_dofs emit]. rewrite Hs.
    destruct (heap w2 !! surface self) as [x0|]; [|reflexivity].
    match goal with
    | |- context [run_solver ?f ?cs ?t ?wa] =>
        match goal with
        | |- _ = fst (match run_solver _ _ _ ?wb with _ => _ end) =>
            pose proof (run_solver_indep f cs t
                          (fun x w w' =>
                             objective_indep residual_J residual_dJ
                               self x 1 w w')
                          (eq_constraints_indep self) wa wb) as H;
            destruct (run_solver f cs t wa) as [[res|e] wa'],
                     (run_solver f cs t wb) as [[res'|e'] wb']
        end
    end; simpl in *; try discriminate; now injection H as <-.
Qed.

(** X8: started on an existing surface with a solver that does not raise
    by itself and asks for no constraint but the one it is given, the
    exact-constraint driver returns a record, whatever shapes the
    collaborators' arrays have: none of its callbacks can raise. *)
Theorem slsqp_driver_returns (self : QfmSurface Field) (tol : R)
  (maxiter : Z) (w : World) (x0 : vec) :
  heap w !! surface self = Some x0 ->
  (forall options, well_behaved 1 (solver "SLSQP" x0 options ["eq"])) ->
  exists d w',
    minimize_qfm_exact_constraints_SLSQP residual_J residual_dJ
      solver self tol maxiter w = (Ok d, w').
Proof.
  intros Hs Hwb.
  unfold minimize_qfm_exact_constraints_SLSQP, minimize.
  cbv [mbind M_bind bind get_dofs emit]. rewrite Hs.
  match goal with
  | |- context [run_solver ?f ?cs ?t ?w0] =>
      pose proof (run_solver_returns f cs t (Hwb _)
                    (fun_exact_returns self)
                    (eq_constraints_return self) w0) as H;
      destruct (run_solver f cs t w0) as [[res|e] w1]
  end; simpl in *; [|discriminate].
  eexists _, _. reflexivity.
Qed.

(** X9: the penalty driver returns a record under the same conditions on
    the solver when, in addition, the two gradients have the size of the
    dof vector at every point. *)
Theorem lbfgs_driver_returns (self : QfmSurface Field) (tol : R)
  (maxiter : Z) (cw : R) (w : World) (x0 : vec) :
  heap w !! surface self = Some x0 ->
  (forall options, well_behaved 0 (solver "L-BFGS-B" x0 options [])) ->
  (forall x, gradients_fit residual_dJ self x = true) ->
  exists d w',
    minimize_qfm_penalty_constraints_LBFGS residual_J residual_dJ
      residual_d2J solver self tol maxiter cw w = (Ok d, w').
Proof.
  intros Hs Hwb Hfit.
  unfold minimize_qfm_penalty_constraints_LBFGS, minimize.
  cbv [mbind M_bind bind get_dofs emit]. rewrite Hs.
  match goal with
  | |- context [run_solver ?f ?cs ?t ?w0] =>
      pose proof (run_solver_returns f cs t (Hwb _)
                    (fun_penalty_returns self cw Hfit)
                    (List.Forall_nil _) w0) as H;
      destruct (run_solver f cs t w0) as [[res|e] w1]
  end; simpl in *; [|discriminate].
  eexists _, _. reflexivity.
Qed.

Lemma penalty_run1_mismatch (self : QfmSurface Field) (x : vec) (cw : R)
  (w : World) :
  bdim (length (residual_dJ (bs self) x))
    (length (label_dJ (label self) x)) = None ->
  qfm_penalty_constraints residual_J residual_dJ residual_d2J self x 1 cw w
  = (Raise ValueError,
     mkWorld (<[surface self := x]> (heap w))
       (calls w ++ [EvSetDofs (surface self) x; EvQfmResidual (surface self);
                    EvResidualJ; EvLabelJ; EvResidualDJ; EvLabelDJ])).
Proof.
  intros Hb. unfold qfm_penalty_constraints. simpl py_in. simpl Z.eqb. exec.
  unfold binop1. rewrite length_smul1, Hb. exec. reflexivity.
Qed.

(** X10: when the first point the solver evaluates is one where the two
    gradients cannot be added, the penalty driver raises [ValueError],
    returns no record, and leaves the surface at that point: the dofs it
    started from are not restored. *)
Theorem lbfgs_driver_shape_error (self : QfmSurface Field) (tol : R)
  (maxiter : Z) (cw : R) (w : World) (x0 x : vec)
  (k : EvalResult -> SolverRun) :
  heap w !! surface self = Some x0 ->
  (forall options, solver "L-BFGS-B" x0 options [] = AskFun x k) ->
  bdim (length (residual_dJ (bs self) x))
    (length (label_dJ (label self) x)) = None ->
  exists w',
    minimize_qfm_penalty_constraints_LBFGS residual_J residual_dJ
      residual_d2J solver self tol maxiter cw w = (Raise ValueError, w')
    /\ heap w' !! surface self = Some x.
Proof.
  intros Hs Hsolver Hb.
  unfold minimize_qfm_penalty_constraints_LBFGS, minimize.
  cbv [mbind M_bind bind get_dofs emit]. rewrite Hs. simpl map.
  rewrite Hsolver. simpl run_solver. unfold bind, fun_penalty.
  rewrite penalty_run1_mismatch by assumption.
  eexists. split; [reflexivity|]. simpl. apply lookup_insert_eq.
Qed.

(** X11: at a point where the label meets its target, the equality
    constraint handed to the constrained solver is zero together with every
    component of its Jacobian. *)
Theorem constraint_and_jacobian_vanish (self : QfmSurface Field) (x : vec)
  (w : World) :
  label_J (label self) x = targetlabel self ->
  exists g,
    fst (con self x w) = Ok (PyFloat 0)
    /\ fst (dcon self x w) = Ok (PyArray g)
    /\ length g = length (label_dJ (label self) x)
    /\ forall i, comp g i = 0.
Proof.
  intros Hl. rewrite con_run, dcon_run. eexists. simpl.
  split; [|split; [reflexivity|split]].
  - do 2 f_equal. rewrite Hl. ring.
  - apply length_smul1.
  - intros i. rewrite comp_smul1, Hl. ring.
Qed.

End MoreDrivers.

(** ** The further properties on the small instance *)

Lemma toy_gradients_fit (x : vec) :
  gradients_fit toy_residual_dJ toy_self x = true.
Proof.
  unfold gradients_fit, has_size, toy_residual_dJ. simpl.
  rewrite !length_map, Nat.eqb_refl. reflexivity.
Defined.

Lemma toy_solver_well_behaved (method : string) (x0 : vec)
  (options : gmap string PyVal) :
  well_behaved 0 (toy_solver method x0 options [])
  /\ well_behaved 1 (toy_solver method x0 options ["eq"]).
Proof.
  split; unfold toy_solver; repeat (constructor; intros).
Defined.

Lemma penalty_reduces_to_objective_witness :
  fst (toy_penalty toy_self toy_x 1 0 toy_world)
  = fst (toy_objective toy_self toy_x 1 toy_world)
  /\ fst (toy_penalty toy_self [1; 0] 1 3 toy_world)
     = fst (toy_objective toy_self [1; 0] 1 toy_world).
Proof.
  split.
  - apply (penalty_reduces_to_objective toy_residual_J toy_residual_dJ
             toy_residual_d2J toy_self toy_x 1 0 toy_world).
    + reflexivity.
    + intros _. reflexivity.
    + left. reflexivity.
  - apply (penalty_reduces_to_objective toy_residual_J toy_residual_dJ
             toy_residual_d2J toy_self [1; 0] 1 3 toy_world).
    + reflexivity.
    + intros _. reflexivity.
    + right. simpl. lra.
Defined.

Lemma penalty_value_monotone_witness :
  exists o p1 p2,
    fst (toy_objective toy_self toy_x 0 toy_world) = Ok (Val o)
    /\ fst (toy_penalty toy_self toy_x 0 1 toy_world) = Ok (Val p1)
    /\ fst (toy_penalty toy_self toy_x 0 2 toy_world) = Ok (Val p2)
    /\ o <= p1 /\ p1 <= p2.
Proof.
  apply (penalty_value_monotone toy_residual_J toy_residual_dJ
           toy_residual_d2J toy_self toy_x 1 2 toy_world); lra.
Defined.

Lemma evaluators_read_their_own_collaborators_witness :
  toy_objective toy_self toy_x 1 toy_world
  = toy_objective odd_self toy_x 1 toy_world
  /\ qfm_label_constraint (init true toy_surface toy_label 1) toy_x 1
       toy_world
     = qfm_label_constraint (init false toy_surface toy_label 1) toy_x 1
         toy_world.
Proof.
  split.
  - apply (evaluators_read_their_own_collaborators toy_residual_J
             toy_residual_dJ toy_self odd_self toy_x 1 toy_world);
      reflexivity.
  - apply (evaluators_read_their_own_collaborators
             (fun (b : bool) (_ : vec) => if b then 1 else 0)
             (fun (b : bool) (x : vec) => x)
             (init true toy_surface toy_label 1)
             (init false toy_surface toy_label 1) toy_x 1 toy_world);
      reflexivity.
Defined.

Lemma drivers_depend_on_dofs_only_witness :
  fst (toy_lbfgs toy_self 0.001 1000 1 toy_world)
  = fst (toy_lbfgs toy_self 0.001 1000 1 two_surfaces)
  /\ fst (toy_slsqp toy_self 0.001 1000 toy_world)
     = fst (toy_slsqp toy_self 0.001 1000 two_surfaces).
Proof.
  apply (drivers_depend_on_dofs_only toy_residual_J toy_residual_dJ
           toy_residual_d2J toy_solver toy_self 0.001 1000 1 toy_world
           two_surfaces).
  vm_compute. reflexivity.
Defined.

Lemma slsqp_driver_returns_witness :
  exists d w', toy_slsqp odd_self 0.001 1000 toy_world = (Ok d, w').
Proof.
  apply (slsqp_driver_returns toy_residual_J toy_residual_dJ toy_solver
           odd_self 0.001 1000 toy_world [0; 0]).
  - vm_compute. reflexivity.
  - intros options. apply toy_solver_well_behaved.
Defined.

Lemma lbfgs_driver_returns_witness :
  exists d w', toy_lbfgs toy_self 0.001 1000 1 toy_world = (Ok d, w').
Proof.
  apply (lbfgs_driver_returns toy_residual_J toy_residual_dJ toy_residual_d2J
           toy_solver toy_self 0.001 1000 1 toy_world [0; 0]).
  - vm_compute. reflexivity.
  - intros options. apply toy_solver_well_behaved.
  - apply toy_gradients_fit.
Defined.

Lemma lbfgs_driver_shape_error_witness :
  exists w',
    toy_lbfgs odd_self 0.001 1000 1 toy_world = (Raise ValueError, w')
    /\ heap w' !! toy_surface = Some toy_x.
Proof.
  eapply (lbfgs_driver_shape_error toy_residual_J toy_residual_dJ
            toy_residual_d2J toy_solver odd_self 0.001 1000 1 toy_world
            [0; 0] toy_x).
  - vm_compute. reflexivity.
  - intros options. reflexivity.
  - reflexivity.
Defined.

Lemma constraint_and_jacobian_vanish_witness :
  exists g,
    fst (con toy_self [1; 0] toy_world) = Ok (PyFloat 0)
    /\ fst (dcon toy_self [1; 0] toy_world) = Ok (PyArray g)
    /\ length g = 2%nat
    /\ forall i, comp g i = 0.
Proof.
  apply (constraint_and_jacobian_vanish toy_self [1; 0] toy_world).
  simpl. lra.
Defined.

Lemma derivative_order_keeps_value_witness :
  exists v g h,
    fst (toy_penalty toy_self toy_x 0 3 toy_world) = Ok (Val v)
    /\ fst (toy_penalty toy_self toy_x 1 3 toy_world) = Ok (ValGrad v g)
    /\ fst (toy_penalty toy_self toy_x 2 3 toy_world)
       = Ok (ValGradHess v g h).
Proof.
  destruct (derivative_order_keeps_value toy_residual_J toy_residual_dJ
              toy_residual_d2J toy_self toy_x 3 toy_world) as (_ & _ & H).
  destruct (H eq_refl) as (v & g & H0 & H1 & H2).
  destruct (H2 eq_refl) as (h & H3).
  exists v, g, h. repeat split; assumption.
Defined.
